(** * gest: a shallow embedding of [main.go]

    The program folds the line-delimited JSON events of [go test -json] into
    a package -> parent test -> subtest model, and turns a coverage profile
    into a directory tree whose counts are summed bottom-up.

    Conventions of the embedding.
    - Go's [int] is 64 bits wide: it is a [Z] and every [+] and [++] of the
      source is followed by [wrap64].
    - Go's [string] is a byte sequence: Rocq's [string].
    - A Go [map] is a [gmap]; a [map[int]struct{}] is a [gset Z].  A [range]
      over a map visits the entries in an unspecified order: the loops of
      [buildTree] and of the finalization take the visiting order as a list,
      and the statements quantify over every permutation of the map's
      entries; the two sums of [aggregate], to which the order is
      immaterial, are folds over the map.
    - The pointers stored in the maps are never shared, so an update through
      [m[k].f = v] is the functional update of the entry at [k].
    - A [float64] that is only stored and copied ([Elapsed], [Duration],
      [Time]) is a [Q]; [Coverage] is the exact rational [covered/total*100]
      whose rounding the program stores.
    - Of what the program prints, the texts are modelled that depend on the
      data: the error message and exit status of the coverage stage, the
      labels of the package banners, the progress line and the cells of the
      rows of the coverage table.  The colours, the layout of the table, the
      texts of [%.2f] and the elapsed time are left out.
    - A call that can panic ([strings.Repeat]) returns an [option]. *)

From stdpp Require Import gmap strings list fin_maps sorting.
From Stdlib Require Import ZArith QArith Ascii.
From Stdlib Require DecimalString.

Local Open Scope Z_scope.

Set Warnings "-clear-no-such-hyp".

(** ** Go's [int] *)

Definition max_int : Z := 2 ^ 63 - 1.

Definition wrap64 (x : Z) : Z := (x + 2 ^ 63) mod 2 ^ 64 - 2 ^ 63.

(** [a + b] on [int]. *)
Definition add64 (a b : Z) : Z := wrap64 (a + b).

(** [n++] on [int]. *)
Definition incr64 (n : Z) : Z := add64 n 1.

(** ** The functions of package [strings] that the program calls *)

(** [strings.ReplaceAll(s, old, new)] for a one-byte [old]. *)
Fixpoint ReplaceAll (s : string) (old : ascii) (new : string) : string :=
  match s with
  | EmptyString => EmptyString
  | String c s' =>
      if Ascii.eqb c old then new +:+ ReplaceAll s' old new
      else String c (ReplaceAll s' old new)
  end.

(** [strings.SplitN(s, sep, 2)] for a one-byte [sep]: the text before the
    first separator, and the text after it when there is one.  The slice has
    length 2 exactly when the second component is [Some _]. *)
Fixpoint SplitN2 (s : string) (sep : ascii) : string * option string :=
  match s with
  | EmptyString => (EmptyString, None)
  | String c s' =>
      if Ascii.eqb c sep then (EmptyString, Some s')
      else let '(a, b) := SplitN2 s' sep in (String c a, b)
  end.

(** [strings.Split(s, sep)] for a one-byte [sep]: never empty. *)
Fixpoint Split (s : string) (sep : ascii) : list string :=
  match s with
  | EmptyString => [EmptyString]
  | String c s' =>
      if Ascii.eqb c sep then EmptyString :: Split s' sep
      else match Split s' sep with
           | h :: t => String c h :: t
           | [] => [String c EmptyString]
           end
  end.

(** [strings.HasPrefix(s, prefix)]. *)
Definition HasPrefix (s pre : string) : bool := String.prefix pre s.

(** ** Data model *)

Module TestEvent.
Record t := mk {
  Time : string;
  Action : string;
  Package : string;
  Test : string;
  Output : string;
  Elapsed : Q
}.
End TestEvent.

Module SubTest.
Record t := mk {
  Name : string;
  Passed : bool;
  Time : Q
}.
End SubTest.

Module ParentTest.
Record t := mk {
  Name : string;
  Subtests : list SubTest.t;
  Passed : bool
}.

(** [&ParentTest{Name: parent}] *)
Definition new (parent : string) : t := mk parent [] false.

Definition set_Passed (b : bool) (pt : t) : t :=
  mk (Name pt) (Subtests pt) b.

Definition append_Subtest (s : SubTest.t) (pt : t) : t :=
  mk (Name pt) (Subtests pt ++ [s]) (Passed pt).
End ParentTest.

Module PackageResult.
Record t := mk {
  Name : string;
  Passed : bool;
  Skipped : bool;
  Duration : Q;
  ParentMap : gmap string ParentTest.t;
  HasTests : bool
}.

(** [&PackageResult{Name: ..., ParentMap: make(...)}] *)
Definition new (name : string) : t := mk name false false 0%Q ∅ false.

Definition set_Passed (b : bool) (r : t) : t :=
  mk (Name r) b (Skipped r) (Duration r) (ParentMap r) (HasTests r).

Definition set_Skipped (b : bool) (r : t) : t :=
  mk (Name r) (Passed r) b (Duration r) (ParentMap r) (HasTests r).

Definition set_Duration (d : Q) (r : t) : t :=
  mk (Name r) (Passed r) (Skipped r) d (ParentMap r) (HasTests r).

Definition set_HasTests (b : bool) (r : t) : t :=
  mk (Name r) (Passed r) (Skipped r) (Duration r) (ParentMap r) b.

Definition set_ParentMap (m : gmap string ParentTest.t) (r : t) : t :=
  mk (Name r) (Passed r) (Skipped r) (Duration r) m (HasTests r).
End PackageResult.

Module FileCoverage.
Record t := mk {
  File : string;
  Covered : gset Z;
  Uncovered : gset Z;
  Total : gset Z
}.

Definition new (filePath : string) : t := mk filePath ∅ ∅ ∅.
End FileCoverage.

Module TreeNode.
#[warnings="-register-all"]
Inductive t := mk {
  Name : string;
  IsDir : bool;
  Children : gmap string t;
  Covered : Z;
  Total : Z;
  Uncovered : list Z;
  Coverage : Q
}.

(** [&TreeNode{Name: ..., IsDir: ..., Children: map[string]*TreeNode{}}] *)
Definition new (name : string) (isDir : bool) : t :=
  mk name isDir ∅ 0 0 [] 0%Q.

Definition set_Children (cs : gmap string t) (n : t) : t :=
  mk (Name n) (IsDir n) cs (Covered n) (Total n) (Uncovered n) (Coverage n).
End TreeNode.

(** ** Event aggregator: the loop over standard input in [main] *)

Definition prettify (name : string) : string :=
  let name := ReplaceAll name "_" " " in
  let name := ReplaceAll name "/" " > " in
  name.

(** The accumulators of [main] that the input loop writes. *)
Record State := mkState {
  packages : gmap string PackageResult.t;
  testsPassed : Z;
  testsFailed : Z;
  testsDone : Z
}.

Definition initial : State := mkState ∅ 0 0 0.

Definition set_packages (m : gmap string PackageResult.t) (st : State) :
    State :=
  mkState m (testsPassed st) (testsFailed st) (testsDone st).

(** [packages[pkg].f = v]: the entry exists whenever the program does this. *)
Definition with_package (pkg : string) (f : PackageResult.t → PackageResult.t)
    (st : State) : State :=
  set_packages (alter f pkg (packages st)) st.

(** [packages[pkg].ParentMap[parent].f = v] *)
Definition with_parent (pkg parent : string) (f : ParentTest.t → ParentTest.t)
    (st : State) : State :=
  with_package pkg
    (λ r, PackageResult.set_ParentMap
            (alter f parent (PackageResult.ParentMap r)) r)
    st.

(** Lines 253-258: the package's entry is created on first sight. *)
Definition ensure_package (pkg : string) (st : State) : State :=
  match packages st !! pkg with
  | Some _ => st
  | None => set_packages (<[pkg := PackageResult.new pkg]> (packages st)) st
  end.

(** Lines 271-273: the parent test's entry is created on first sight. *)
Definition ensure_parent (pkg parent : string) (st : State) : State :=
  with_package pkg
    (λ r, match PackageResult.ParentMap r !! parent with
          | Some _ => r
          | None =>
              PackageResult.set_ParentMap
                (<[parent := ParentTest.new parent]>
                   (PackageResult.ParentMap r)) r
          end)
    st.

(** Lines 275-303: the [switch] on the action of a test-scoped event. *)
Definition on_action (event : TestEvent.t) (parent : string)
    (sub : option string) (st : State) : State :=
  let pkg := TestEvent.Package event in
  if String.eqb (TestEvent.Action event) "pass" then
    let st :=
      match sub with
      | Some subtestName =>
          with_parent pkg parent
            (ParentTest.append_Subtest
               (SubTest.mk subtestName true (TestEvent.Elapsed event))) st
      | None => with_parent pkg parent (ParentTest.set_Passed true) st
      end in
    mkState (packages st) (incr64 (testsPassed st)) (testsFailed st)
      (incr64 (testsDone st))
  else if String.eqb (TestEvent.Action event) "fail" then
    let st :=
      match sub with
      | Some subtestName =>
          with_parent pkg parent (ParentTest.set_Passed false)
            (with_parent pkg parent
               (ParentTest.append_Subtest
                  (SubTest.mk subtestName false (TestEvent.Elapsed event))) st)
      | None => with_parent pkg parent (ParentTest.set_Passed false) st
      end in
    mkState (packages st) (testsPassed st) (incr64 (testsFailed st))
      (incr64 (testsDone st))
  else st.

(** Lines 260-304: a record that carries a test identifier. *)
Definition on_test (event : TestEvent.t) (st : State) : State :=
  let pkg := TestEvent.Package event in
  let st := with_package pkg (PackageResult.set_HasTests true) st in
  let '(first, rest) := SplitN2 (TestEvent.Test event) "/" in
  let parent := prettify first in
  let sub := prettify <$> rest in
  let st := ensure_parent pkg parent st in
  on_action event parent sub st.

(** Lines 306-314: the package-level pass and fail records. *)
Definition on_package (event : TestEvent.t) (st : State) : State :=
  let pkg := TestEvent.Package event in
  let st :=
    if String.eqb (TestEvent.Action event) "pass"
       && String.eqb (TestEvent.Test event) EmptyString
    then
      with_package pkg (PackageResult.set_Duration (TestEvent.Elapsed event))
        (with_package pkg (PackageResult.set_Passed true) st)
    else st in
  if String.eqb (TestEvent.Action event) "fail"
     && String.eqb (TestEvent.Test event) EmptyString
  then
    with_package pkg (PackageResult.set_Duration (TestEvent.Elapsed event))
      (with_package pkg (PackageResult.set_Passed false) st)
  else st.

(** The body of the input loop for a decoded record. *)
Definition ingest (st : State) (event : TestEvent.t) : State :=
  let st := ensure_package (TestEvent.Package event) st in
  let st :=
    if String.eqb (TestEvent.Test event) EmptyString then st
    else on_test event st in
  on_package event st.

Definition ingest_all (st : State) (events : list TestEvent.t) : State :=
  foldl ingest st events.

Section Stream.
(** [json.Unmarshal] into a fresh [TestEvent]: [None] when it returns an
    error.  The decoder belongs to package [encoding/json]. *)
Variable Unmarshal : string → option TestEvent.t.

(** Lines 246-315: one iteration of the input loop. *)
Definition ingest_line (st : State) (line : string) : State :=
  match Unmarshal line with
  | None => st
  | Some event => ingest st event
  end.

(** The input loop over the lines that the scanner delivers; [main] does
    not look at the scanner's error. *)
Definition ingest_lines (st : State) (lines : list string) : State :=
  foldl ingest_line st lines.
End Stream.

(** ** Finalization: lines 321-330 of [main] *)

Record Suites := mkSuites {
  suitesPassed : Z;
  suitesFailed : Z;
  suitesSkipped : Z
}.

(** One iteration of the loop over [packages]; [pkg] is the pointer held at
    [name], so [pkg.Skipped = true] writes into the map. *)
Definition classify (acc : gmap string PackageResult.t * Suites)
    (entry : string * PackageResult.t) :
    gmap string PackageResult.t * Suites :=
  let '(m, s) := acc in
  let '(name, pkg) := entry in
  if negb (PackageResult.HasTests pkg) then
    (<[name := PackageResult.set_Skipped true pkg]> m,
     mkSuites (suitesPassed s) (suitesFailed s) (incr64 (suitesSkipped s)))
  else if PackageResult.Passed pkg then
    (m, mkSuites (incr64 (suitesPassed s)) (suitesFailed s) (suitesSkipped s))
  else
    (m, mkSuites (suitesPassed s) (incr64 (suitesFailed s)) (suitesSkipped s)).

(** The loop, visiting the entries of [m] in the order [order]. *)
Definition finalize_ordered (order : list (string * PackageResult.t))
    (m : gmap string PackageResult.t) :
    gmap string PackageResult.t * Suites :=
  foldl classify (m, mkSuites 0 0 0) order.

Definition finalize (m : gmap string PackageResult.t) :
    gmap string PackageResult.t * Suites :=
  finalize_ordered (map_to_list m) m.

(** ** Coverage profile: [parseCoverProfile] *)

(** The fragment of regular expressions that the pattern of the program
    uses: a literal byte, a greedy [c+] over a class of bytes, and a
    capturing group around such a [c+].  A pattern is a sequence of these,
    anchored at both ends. *)
Inductive atom :=
  | Lit (c : ascii)
  | Plus (cls : ascii → bool)
  | Cap (cls : ascii → bool).

(** [cls+] at the head of [s], longest first; [k] gets the text taken and
    the rest, and the first alternative on which [k] succeeds wins, which is
    the leftmost-first rule of package [regexp]. *)
Fixpoint greedy {R} (cls : ascii → bool) (k : string → string → option R)
    (s : string) : option R :=
  match s with
  | EmptyString => None
  | String c s' =>
      if cls c then
        match greedy cls (λ taken rest, k (String c taken) rest) s' with
        | Some r => Some r
        | None => k (String c EmptyString) s'
        end
      else None
  end.

(** The captured groups of the match of [re] against all of [s]. *)
Fixpoint exec (re : list atom) (s : string) : option (list string) :=
  match re with
  | [] => match s with EmptyString => Some [] | _ => None end
  | Lit c :: re' =>
      match s with
      | String c' s' => if Ascii.eqb c c' then exec re' s' else None
      | EmptyString => None
      end
  | Plus cls :: re' => greedy cls (λ _ rest, exec re' rest) s
  | Cap cls :: re' =>
      greedy cls (λ taken rest, cons taken <$> exec re' rest) s
  end.

(** [re.FindStringSubmatch(s)]: the whole match at index 0, then the groups;
    [None] is the [nil] slice. *)
Definition FindStringSubmatch (re : list atom) (s : string) :
    option (list string) :=
  cons s <$> exec re s.

(** [.]: any byte but the line feed. *)
Definition dot (c : ascii) : bool := negb (Ascii.eqb c "010").

(** [\d] *)
Definition digit (c : ascii) : bool :=
  (48 <=? N_of_ascii c)%N && (N_of_ascii c <=? 57)%N.

(** [^(.+):(\d+)\.\d+,\d+\.\d+ \d+ (\d+)$] *)
Definition coverRe : list atom :=
  [Cap dot; Lit ":"; Cap digit; Lit "."; Plus digit; Lit ","; Plus digit;
   Lit "."; Plus digit; Lit " "; Plus digit; Lit " "; Cap digit].

Fixpoint digits_value (s : string) (acc : Z) : option Z :=
  match s with
  | EmptyString => Some acc
  | String c s' =>
      if digit c
      then digits_value s' (10 * acc + (Z.of_N (N_of_ascii c) - 48))
      else None
  end.

(** The value of [strconv.Atoi(s)], whose error the program drops: 0 on a
    syntax error, the nearest bound of [int] when out of range. *)
Definition Atoi (s : string) : Z :=
  let '(neg, body) :=
    match s with
    | String "-" s' => (true, s')
    | String "+" s' => (false, s')
    | _ => (false, s)
    end in
  match body with
  | EmptyString => 0
  | _ =>
      match digits_value body 0 with
      | None => 0
      | Some v => if neg then Z.max (- v) (- 2 ^ 63) else Z.min v max_int
      end
  end.

(** Lines 100-105: the line number enters [Total] and one of the other two. *)
Definition add_line (lineNum count : Z) (fc : FileCoverage.t) :
    FileCoverage.t :=
  if 0 <? count then
    FileCoverage.mk (FileCoverage.File fc)
      ({[lineNum]} ∪ FileCoverage.Covered fc) (FileCoverage.Uncovered fc)
      ({[lineNum]} ∪ FileCoverage.Total fc)
  else
    FileCoverage.mk (FileCoverage.File fc)
      (FileCoverage.Covered fc) ({[lineNum]} ∪ FileCoverage.Uncovered fc)
      ({[lineNum]} ∪ FileCoverage.Total fc).

(** Lines 80-105: the body of the loop over the lines of the profile. *)
Definition record_line (result : gmap string FileCoverage.t) (line : string) :
    gmap string FileCoverage.t :=
  if HasPrefix line "mode:" then result
  else
    match FindStringSubmatch coverRe line with
    | None => result
    | Some m =>
        let filePath := m !!! 1%nat in
        let lineNum := Atoi (m !!! 2%nat) in
        let count := Atoi (m !!! 3%nat) in
        let result :=
          match result !! filePath with
          | Some _ => result
          | None => <[filePath := FileCoverage.new filePath]> result
          end in
        alter (add_line lineNum count) filePath result
    end.

(** Lines 79-106: the loop over the lines that the scanner delivers. *)
Definition scan (result : gmap string FileCoverage.t) (lines : list string) :
    gmap string FileCoverage.t :=
  foldl record_line result lines.

Definition error := string.

(** What [bufio.Scanner] makes of an opened file: the lines that [Scan]
    delivers, and the value of [Err()] once [Scan] has returned false (a
    failed read, or a line longer than the scanner's buffer). *)
Record File := mkFile {
  lines : list string;
  Err : option error
}.

(** [os.Open] *)
Definition FileSystem := string → error + File.

(** The map and the error that are returned; [None] is [nil]. *)
Definition parseCoverProfile (Open : FileSystem) (path : string) :
    option (gmap string FileCoverage.t) * option error :=
  match Open path with
  | inl err => (None, Some err)
  | inr file => (Some (scan ∅ (lines file)), Err file)
  end.

(** The line that [fmt.Println("Error:", err)] prints. *)
Definition error_line (err : error) : string :=
  "Error: " +:+ err +:+ String "010" EmptyString.

(** Lines 400-405 of [main]: [Exit 1] after printing the error, or on to
    the tree and the table with the file data, the run ending with status 0. *)
Inductive Outcome :=
  | Exit (code : Z) (printed : string)
  | Table (fileData : gmap string FileCoverage.t).

Definition coverage_stage (Open : FileSystem) (path : string) : Outcome :=
  match parseCoverProfile Open path with
  | (_, Some err) => Exit 1 (error_line err)
  | (fileData, None) => Table (default ∅ fileData)
  end.

Definition exit_code (o : Outcome) : Z :=
  match o with
  | Exit code _ => code
  | Table _ => 0
  end.

(** ** Coverage tree: [buildTree] and [aggregate] *)

(** [filepath.Separator] on the systems where it is the slash. *)
Definition Separator : ascii := "/".

(** [float64(covered) / float64(total) * 100] *)
Definition percentage (covered total : Z) : Q :=
  (inject_Z covered / inject_Z total * 100)%Q.

(** Lines 129-138: the file's data is written on the last node of the path. *)
Definition set_leaf (fc : FileCoverage.t) (node : TreeNode.t) : TreeNode.t :=
  let covered := Z.of_nat (size (FileCoverage.Covered fc)) in
  let total := Z.of_nat (size (FileCoverage.Total fc)) in
  let uncovered := merge_sort Z.le (elements (FileCoverage.Uncovered fc)) in
  TreeNode.mk (TreeNode.Name node) (TreeNode.IsDir node)
    (TreeNode.Children node) covered total uncovered
    (if 0 <? total then percentage covered total else TreeNode.Coverage node).

(** Lines 119-138: the walk along the segments of one path, creating the
    nodes that are missing; [i < len(parts)-1] holds when segments remain. *)
Fixpoint descend (parts : list string) (fc : FileCoverage.t)
    (node : TreeNode.t) : TreeNode.t :=
  match parts with
  | [] => set_leaf fc node
  | part :: rest =>
      let child :=
        match TreeNode.Children node !! part with
        | Some c => c
        | None =>
            TreeNode.new part (match rest with [] => false | _ => true end)
        end in
      TreeNode.set_Children
        (<[part := descend rest fc child]> (TreeNode.Children node)) node
  end.

Definition insert_file (root : TreeNode.t) (entry : string * FileCoverage.t) :
    TreeNode.t :=
  descend (Split entry.1 Separator) entry.2 root.

(** [buildTree], the entries of [fileData] being visited in the order
    [order]. *)
Definition buildTree_ordered (order : list (string * FileCoverage.t)) :
    TreeNode.t :=
  foldl insert_file (TreeNode.new "." true) order.

Definition buildTree (fileData : gmap string FileCoverage.t) : TreeNode.t :=
  buildTree_ordered (map_to_list fileData).

(** The two sums of the loop of [aggregate] over the children; the order of
    the visit is immaterial to them ([sum64_order] below). *)
Definition sum_Covered (children : gmap string TreeNode.t) : Z :=
  map_fold (λ _ child acc, add64 acc (TreeNode.Covered child)) 0 children.

Definition sum_Total (children : gmap string TreeNode.t) : Z :=
  map_fold (λ _ child acc, add64 acc (TreeNode.Total child)) 0 children.

Fixpoint aggregate (node : TreeNode.t) : TreeNode.t :=
  if negb (TreeNode.IsDir node) then node
  else
    let children := aggregate <$> TreeNode.Children node in
    let totalCovered := sum_Covered children in
    let totalLines := sum_Total children in
    TreeNode.mk (TreeNode.Name node) (TreeNode.IsDir node) children
      totalCovered totalLines (TreeNode.Uncovered node)
      (if 0 <? totalLines then percentage totalCovered totalLines
       else TreeNode.Coverage node).

(** * Vocabulary of the statements

    ** Events *)

(** The key under which the event's parent test is kept, and the subtest
    name when the identifier has a second segment. *)
Definition parent_key (event : TestEvent.t) : string :=
  prettify (SplitN2 (TestEvent.Test event) "/").1.

Definition subtest_name (event : TestEvent.t) : option string :=
  prettify <$> (SplitN2 (TestEvent.Test event) "/").2.

(** A test-scoped event of package [pkg] and parent test [parent]. *)
Definition targets (pkg parent : string) (event : TestEvent.t) : Prop :=
  TestEvent.Package event = pkg ∧
  TestEvent.Test event ≠ EmptyString ∧
  parent_key event = parent.

#[local] Instance targets_dec pkg parent event :
  Decision (targets pkg parent event).
Proof. unfold targets. apply _. Defined.

(** A pass event for the parent test itself. *)
Definition parent_pass (event : TestEvent.t) : Prop :=
  TestEvent.Action event = "pass" ∧ subtest_name event = None.

(** A fail event, for the parent test or for one of its subtests. *)
Definition fail_event (event : TestEvent.t) : Prop :=
  TestEvent.Action event = "fail".

(** The [Passed] flag of the parent test [parent] of package [pkg], when
    there is such an entry. *)
Definition parent_flag (st : State) (pkg parent : string) : option bool :=
  r ← packages st !! pkg;
  pt ← PackageResult.ParentMap r !! parent;
  Some (ParentTest.Passed pt).

(** What one event does to the entry of its parent test. *)
Definition parent_step (event : TestEvent.t) (pt : ParentTest.t) :
    ParentTest.t :=
  if String.eqb (TestEvent.Action event) "pass" then
    match subtest_name event with
    | Some name =>
        ParentTest.append_Subtest
          (SubTest.mk name true (TestEvent.Elapsed event)) pt
    | None => ParentTest.set_Passed true pt
    end
  else if String.eqb (TestEvent.Action event) "fail" then
    match subtest_name event with
    | Some name =>
        ParentTest.set_Passed false
          (ParentTest.append_Subtest
             (SubTest.mk name false (TestEvent.Elapsed event)) pt)
    | None => ParentTest.set_Passed false pt
    end
  else pt.

(** What one event does to the entry of its package. *)
Definition package_step (event : TestEvent.t) (r : PackageResult.t) :
    PackageResult.t :=
  if String.eqb (TestEvent.Test event) EmptyString then
    if String.eqb (TestEvent.Action event) "pass" then
      PackageResult.set_Duration (TestEvent.Elapsed event)
        (PackageResult.set_Passed true r)
    else if String.eqb (TestEvent.Action event) "fail" then
      PackageResult.set_Duration (TestEvent.Elapsed event)
        (PackageResult.set_Passed false r)
    else r
  else
    let parent := parent_key event in
    let pt :=
      default (ParentTest.new parent) (PackageResult.ParentMap r !! parent) in
    PackageResult.set_ParentMap
      (<[parent := parent_step event pt]> (PackageResult.ParentMap r))
      (PackageResult.set_HasTests true r).

(** What one event of the parent test does to its [Passed] flag. *)
Definition flag_step (event : TestEvent.t) (b : bool) : bool :=
  if String.eqb (TestEvent.Action event) "pass" then
    match subtest_name event with Some _ => b | None => true end
  else if String.eqb (TestEvent.Action event) "fail" then false
  else b.

(** ** Finalization *)

(** Whether the entry of package [pkg] has [HasTests] set. *)
Definition has_tests (st : State) (pkg : string) : bool :=
  default false (PackageResult.HasTests <$> packages st !! pkg).

(** The three classes of the finalization loop. *)
Definition is_skipped (r : PackageResult.t) : bool :=
  negb (PackageResult.HasTests r).

Definition is_passed (r : PackageResult.t) : bool :=
  PackageResult.HasTests r && PackageResult.Passed r.

Definition is_failed (r : PackageResult.t) : bool :=
  PackageResult.HasTests r && negb (PackageResult.Passed r).

(** The number of entries of [l] in the class [P]. *)
Definition tally (P : PackageResult.t → bool)
    (l : list (string * PackageResult.t)) : Z :=
  Z.of_nat (length (filter (λ entry, Is_true (P entry.2)) l)).

(** The distinct package identifiers of a list of events. *)
Definition distinct_packages (events : list TestEvent.t) : gset string :=
  list_to_set (TestEvent.Package <$> events).

(** The map part of the finalization loop. *)
Definition mark (m : gmap string PackageResult.t)
    (entry : string * PackageResult.t) : gmap string PackageResult.t :=
  if is_skipped entry.2
  then <[entry.1 := PackageResult.set_Skipped true entry.2]> m
  else m.

(** ** The coverage profile *)

(** The record that a line of the profile holds, if it holds one: file
    path, line number and hit count. *)
Definition matched (line : string) : option (string * Z * Z) :=
  if HasPrefix line "mode:" then None
  else
    match FindStringSubmatch coverRe line with
    | None => None
    | Some m => Some (m !!! 1%nat, Atoi (m !!! 2%nat), Atoi (m !!! 3%nat))
    end.

(** The line numbers of the records of file [filePath] whose hit count
    satisfies [sel], one per record, in the order of the profile. *)
Definition line_numbers (sel : Z → bool) (filePath : string)
    (lines : list string) : list Z :=
  omap (λ line,
          match matched line with
          | Some (f, n, c) =>
              if bool_decide (f = filePath) && sel c then Some n else None
          | None => None
          end) lines.

Definition hit (count : Z) : bool := 0 <? count.

Definition not_hit (count : Z) : bool := negb (0 <? count).

Definition any_count (count : Z) : bool := true.

(** ** The coverage tree *)

(** The property [P] holds of every node of the tree. *)
Inductive all_nodes (P : TreeNode.t → Prop) : TreeNode.t → Prop :=
  | all_nodes_intro node :
      P node →
      map_Forall (λ _ child, all_nodes P child) (TreeNode.Children node) →
      all_nodes P node.

(** The counts and the percentage of a node are consistent. *)
Definition node_ok (node : TreeNode.t) : Prop :=
  0 ≤ TreeNode.Covered node ≤ TreeNode.Total node ∧
  (TreeNode.Coverage node <= 100)%Q.

(** The node at the end of the path [parts] from [node]. *)
Fixpoint lookup_path (parts : list string) (node : TreeNode.t) :
    option TreeNode.t :=
  match parts with
  | [] => Some node
  | part :: rest => TreeNode.Children node !! part ≫= lookup_path rest
  end.

(** A node that is not a directory has no children. *)
Definition leaf_like (node : TreeNode.t) : Prop :=
  TreeNode.IsDir node = false → TreeNode.Children node = ∅.

(** The counts of a directory node are the sums over its children. *)
Definition summed (node : TreeNode.t) : Prop :=
  TreeNode.IsDir node = true →
  TreeNode.Covered node = sum_Covered (TreeNode.Children node) ∧
  TreeNode.Total node = sum_Total (TreeNode.Children node).

(** The sum of [f] over a map, in [Z]. *)
Definition zsum {A} (f : A → Z) (m : gmap string A) : Z :=
  map_fold (λ _ x acc, acc + f x) 0 m.

(** The sum of [f] over the file nodes that are reached from [node] through
    directory nodes only. *)
Fixpoint leaf_sum (f : TreeNode.t → Z) (node : TreeNode.t) : Z :=
  if TreeNode.IsDir node
  then map_fold (λ _ z acc, acc + z) 0 (leaf_sum f <$> TreeNode.Children node)
  else f node.

(** The segments of a file path. *)
Definition segments (filePath : string) : list string :=
  Split filePath Separator.

(** No file path of the profile leads through another one: the segments of
    one are never the first segments of another.  Two paths have the same
    segments only when they are the same path ([Split_inj] below). *)
Definition conflict_free (fileData : gmap string FileCoverage.t) : Prop :=
  ∀ f g, f ∈ dom fileData → g ∈ dom fileData → f ≠ g →
         ¬ segments f `prefix_of` segments g.

(** The sums of the per-file counts. *)
Definition total_lines (fileData : gmap string FileCoverage.t) : Z :=
  zsum (λ fc, Z.of_nat (size (FileCoverage.Total fc))) fileData.

Definition covered_lines (fileData : gmap string FileCoverage.t) : Z :=
  zsum (λ fc, Z.of_nat (size (FileCoverage.Covered fc))) fileData.

(** The walk of [descend] along [parts] from [node] goes through directory
    nodes and ends on a node that it creates. *)
Fixpoint insertable (parts : list string) (node : TreeNode.t) : Prop :=
  match parts with
  | [] =>
      TreeNode.IsDir node = false ∧ TreeNode.Children node = ∅ ∧
      TreeNode.Covered node = 0 ∧ TreeNode.Total node = 0
  | part :: rest =>
      TreeNode.IsDir node = true ∧
      match TreeNode.Children node !! part with
      | None => True
      | Some child => rest ≠ [] ∧ insertable rest child
      end
  end.

(** The sum of [f] over the entries of a list, in [Z]. *)
Definition lsum {A} (f : A → Z) (l : list (string * A)) : Z :=
  foldr (λ entry acc, acc + f entry.2) 0 l.

(** What [buildTree] maintains while it inserts the paths [paths] one by
    one, when none of them leads through another: files are leaves, the root
    is a directory, every node lies on an inserted path, and every file node
    ends one. *)
Definition tree_inv (paths : list (list string)) (root : TreeNode.t) : Prop :=
  all_nodes leaf_like root ∧
  TreeNode.IsDir root = true ∧
  ∀ p node, p ≠ [] → lookup_path p root = Some node →
    (∃ q, q ∈ paths ∧ p `prefix_of` q) ∧
    (TreeNode.IsDir node = false → p ∈ paths).

Definition file_total (fc : FileCoverage.t) : Z :=
  Z.of_nat (size (FileCoverage.Total fc)).

Definition file_covered (fc : FileCoverage.t) : Z :=
  Z.of_nat (size (FileCoverage.Covered fc)).

(** The sorted uncovered lines of a file. *)
Definition file_uncovered (fc : FileCoverage.t) : list Z :=
  merge_sort Z.le (elements (FileCoverage.Uncovered fc)).

(** The counts, the uncovered lines and the kind of a node. *)
Definition summary (node : TreeNode.t) : Z * Z * list Z * bool :=
  (TreeNode.Covered node, TreeNode.Total node, TreeNode.Uncovered node,
   TreeNode.IsDir node).

(** * Sample inputs *)

Definition sample_event (action pkg test : string) : TestEvent.t :=
  TestEvent.mk EmptyString action pkg test EmptyString 0%Q.

(** A subtest of [Foo] fails, then the pass event of [Foo] itself arrives. *)
Definition fail_then_pass : list TestEvent.t :=
  [sample_event "fail" "p" "Foo/Bar"; sample_event "pass" "p" "Foo"].

(** Two events that are neither pass nor fail, for two tests of package [p],
    and the state once the first of them has been read. *)
Definition run_Bar : TestEvent.t := sample_event "run" "p" "Bar".

Definition run_Foo : TestEvent.t := sample_event "run" "p" "Foo".

Definition seen_Bar : State := ingest initial run_Bar.

(** A stream over two packages: [p] has a test, [q] has package-level
    records only. *)
Definition two_packages : list TestEvent.t :=
  [sample_event "pass" "p" "Foo"; sample_event "pass" "p" EmptyString;
   sample_event "pass" "q" EmptyString].

(** The double quote, and a decoder for one record, which stands for the
    decoder of package [encoding/json] where a concrete one is needed. *)
Definition quote : string := String "034" EmptyString.

Definition sample_line : string :=
  "{" +:+ quote +:+ "Action" +:+ quote +:+ ":" +:+ quote +:+ "pass" +:+ quote
  +:+ "," +:+ quote +:+ "Package" +:+ quote +:+ ":" +:+ quote +:+ "q" +:+ quote
  +:+ "}".

Definition sample_Unmarshal (line : string) : option TestEvent.t :=
  if String.eqb line sample_line
  then Some (sample_event "pass" "q" EmptyString)
  else None.

(** A record, then a line that is cut short. *)
Definition sample_stream : list string := [sample_line; "{"].

(** A profile in which line 7 of one file is recorded three times, hit,
    not hit, and hit again. *)
Definition overlapping_profile : list string :=
  ["f.go:7.1,7.9 1 1"; "f.go:7.3,7.5 1 0"; "f.go:7.1,7.9 1 1"].

Definition overlapping_entry : FileCoverage.t :=
  FileCoverage.mk "f.go" {[7]} {[7]} {[7]}.

(** A file system whose only file holds [overlapping_profile], and one in
    which every path opens but cannot be read, as a directory does. *)
Definition sample_fs : FileSystem :=
  λ path,
    if String.eqb path "cover.out" then inr (mkFile overlapping_profile None)
    else inl ("open " +:+ path +:+ ": no such file or directory").

Definition directory_fs : FileSystem :=
  λ path, inr (mkFile [] (Some ("read " +:+ path +:+ ": is a directory"))).


(** The profile of three records for [a/b/file.go], and the map that
    [parseCoverProfile] makes of it. *)
Definition abc_profile : list string :=
  ["a/b/file.go:1.1,1.1 1 1"; "a/b/file.go:2.1,2.1 1 0";
   "a/b/file.go:3.1,3.1 1 1"].

Definition abc_fs : FileSystem := λ _, inr (mkFile abc_profile None).

Definition abc_data : gmap string FileCoverage.t := scan ∅ abc_profile.

(** A profile of two files in two directories. *)
Definition two_files_data : gmap string FileCoverage.t :=
  scan ∅ ["a/x.go:1.1,1.9 1 1"; "a/x.go:2.1,2.9 1 0"; "b.go:1.1,1.9 1 1"].

(** A profile in which the path of one file leads through the other. *)
Definition nested_a : FileCoverage.t := FileCoverage.mk "a" {[1]} ∅ {[1]}.

Definition nested_ab : FileCoverage.t := FileCoverage.mk "a/b" {[1]} ∅ {[1]}.

Definition nested_data : gmap string FileCoverage.t :=
  scan ∅ ["a:1.1,1.9 1 1"; "a/b:1.1,1.9 1 1"].

(** * Further vocabulary

    ** Events *)

(** The event carries a test identifier. *)
Definition test_scoped (event : TestEvent.t) : bool :=
  negb (String.eqb (TestEvent.Test event) EmptyString).

Definition has_action (action : string) (event : TestEvent.t) : bool :=
  String.eqb (TestEvent.Action event) action.

(** The number of events that satisfy [P]. *)
Definition count_events (P : TestEvent.t → bool)
    (events : list TestEvent.t) : Z :=
  Z.of_nat (length (filter (λ e, Is_true (P e)) events)).

(** The entry of the parent test [parent] of package [pkg]. *)
Definition parent_entry (st : State) (pkg parent : string) :
    option ParentTest.t :=
  r ← packages st !! pkg; PackageResult.ParentMap r !! parent.

(** The subtest that a pass or fail event of a subtest appends. *)
Definition subtest_of (event : TestEvent.t) : option SubTest.t :=
  match subtest_name event with
  | Some name =>
      if has_action "pass" event
      then Some (SubTest.mk name true (TestEvent.Elapsed event))
      else if has_action "fail" event
      then Some (SubTest.mk name false (TestEvent.Elapsed event))
      else None
  | None => None
  end.

(** The subtests of the parent test [parent] of package [pkg] in a stream,
    in the order of the stream. *)
Definition subtests_of (pkg parent : string) (events : list TestEvent.t) :
    list SubTest.t :=
  omap (λ e, if decide (targets pkg parent e) then subtest_of e else None)
    events.

(** A package-level pass or fail event of package [pkg]. *)
Definition is_verdict (pkg : string) (event : TestEvent.t) : bool :=
  bool_decide (TestEvent.Package event = pkg)
  && negb (test_scoped event)
  && (has_action "pass" event || has_action "fail" event).

Definition verdicts (pkg : string) (events : list TestEvent.t) :
    list TestEvent.t :=
  filter (λ e, Is_true (is_verdict pkg e)) events.

(** The events of package [pkg]. *)
Definition events_of (pkg : string) (events : list TestEvent.t) :
    list TestEvent.t :=
  filter (λ e, TestEvent.Package e = pkg) events.

(** [c] occurs in [s]. *)
Fixpoint occurs (c : ascii) (s : string) : bool :=
  match s with
  | EmptyString => false
  | String c' s' => Ascii.eqb c' c || occurs c s'
  end.

(** ** The banners of the report *)

(** Lines 335-352 of [main]: the label of the banner of a package in the
    grouped report. *)
Definition grouped_banner (pkg : PackageResult.t) : string :=
  if PackageResult.Skipped pkg then " SKIP "
  else if PackageResult.Passed pkg then " PASS "
  else " FAIL ".

(** Lines 374-386 of [main]: the label of the banner of a package in the
    report with the coverage table; [tag] goes through three statements. *)
Definition table_banner (pkg : PackageResult.t) : string :=
  let tag := EmptyString in
  let tag := if PackageResult.Passed pkg then " PASS " else tag in
  let tag := if PackageResult.Skipped pkg then " SKIP " else tag in
  let tag :=
    if negb (PackageResult.Passed pkg) && negb (PackageResult.Skipped pkg)
    then " FAIL " else tag in
  tag.

(** The number of packages whose banner has the label [label]. *)
Definition banner_count (label : string)
    (m : gmap string PackageResult.t) : Z :=
  Z.of_nat
    (length (filter (λ entry, table_banner entry.2 = label) (map_to_list m))).

(** What the finalization loop makes of an entry that is not yet marked. *)
Definition finalized (r : PackageResult.t) : PackageResult.t :=
  PackageResult.set_Skipped (negb (PackageResult.HasTests r)) r.

(** ** The coverage profile *)

(** Every byte of [s] is in the class [cls]. *)
Fixpoint all_in (cls : ascii → bool) (s : string) : bool :=
  match s with
  | EmptyString => true
  | String c s' => cls c && all_in cls s'
  end.

(** A non-empty string of decimal digits. *)
Definition digits (s : string) : Prop :=
  s ≠ EmptyString ∧ all_in digit s = true.

(** The text of a record: [path:d1.d2,d3.d4 d5 d6]. *)
Definition record_text (path d1 d2 d3 d4 d5 d6 : string) : string :=
  path +:+ ":" +:+ d1 +:+ "." +:+ d2 +:+ "," +:+ d3 +:+ "." +:+ d4
  +:+ " " +:+ d5 +:+ " " +:+ d6.

(** The entry that the records of [filePath] in [lines] make. *)
Definition entry_of (filePath : string) (lines : list string) :
    FileCoverage.t :=
  FileCoverage.mk filePath
    (list_to_set (line_numbers hit filePath lines))
    (list_to_set (line_numbers not_hit filePath lines))
    (list_to_set (line_numbers any_count filePath lines)).

(** ** The shape of the coverage tree *)

(** The children of a node are kept under their own names. *)
Definition named (node : TreeNode.t) : Prop :=
  map_Forall (λ key child, TreeNode.Name child = key) (TreeNode.Children node).

(** The percentage of a node is that of its counts, and 0 when it has no
    lines. *)
Definition coverage_of_counts (node : TreeNode.t) : Prop :=
  TreeNode.Coverage node
  = if 0 <? TreeNode.Total node
    then percentage (TreeNode.Covered node) (TreeNode.Total node)
    else 0%Q.

(** What [buildTree] leaves of the percentages: that of the counts on a
    file node, and 0 on a directory node. *)
Definition coverage_built (node : TreeNode.t) : Prop :=
  if TreeNode.IsDir node then TreeNode.Coverage node = 0%Q
  else coverage_of_counts node.

(** A directory node has no uncovered lines of its own. *)
Definition dir_clean (node : TreeNode.t) : Prop :=
  TreeNode.IsDir node = true → TreeNode.Uncovered node = [].

(** * Rendering

    ** The functions of packages [strconv], [strings] and [sort] *)

(** [strconv.Itoa(i)], and the verb [%d] of package [fmt]. *)
Definition Itoa (i : Z) : string :=
  DecimalString.NilZero.string_of_int (Z.to_int i).

(** [count] copies of [s]. *)
Fixpoint repeated (s : string) (count : nat) : string :=
  match count with
  | O => EmptyString
  | S count' => s +:+ repeated s count'
  end.

(** [strings.Repeat(s, count)]: [None] when it panics, on a negative count
    and when the length of the result is no [int]. *)
Definition Repeat (s : string) (count : Z) : option string :=
  if count <? 0 then None
  else if max_int <? Z.of_nat (String.length s) * count then None
  else Some (repeated s (Z.to_nat count)).

(** [strings.Join(elems, sep)] *)
Definition Join (elems : list string) (sep : string) : string :=
  String.concat sep elems.

(** The order that [sort.Slice] is given in [addRows]: by [Name], which is
    here the first component.  The comparison of Go strings is that of
    their bytes, as [String.le] is. *)
Definition by_Name {A} (x y : string * A) : Prop := String.le x.1 y.1.

#[local] Instance by_Name_dec {A} (x y : string * A) : Decision (by_Name x y).
Proof. unfold by_Name. apply _. Defined.

(** ** The progress bar: [printProgress] *)

(** The black square U+25A0 in UTF-8. *)
Definition block : string :=
  String "226" (String "150" (String "160" EmptyString)).

(** The text that [printProgress] prints; [None] when [strings.Repeat]
    panics.  [%] is the remainder of the truncated division, [Z.rem]. *)
Definition printProgress (testsDone : Z) : option string :=
  let barLen := 20 in
  let filled := Z.rem testsDone (barLen + 1) in
  squares ← Repeat block filled;
  blanks ← Repeat " " (barLen - filled);
  let bar := squares +:+ blanks in
  Some (String "013" "Running tests: [" +:+ bar +:+ "] " +:+ Itoa testsDone
        +:+ " tests done").

(** ** The rows of the coverage table: [addRows] *)

(** A row of the table: the texts of its cells before they are painted.
    The percentage is kept as the number [node.Coverage], of which the
    format [%6.2f%%] makes the text and [colorCoverage] the colour. *)
Module TableRow.
Record t := mk {
  displayName : string;
  coverage : Q;
  lines : string;
  uncovered : string
}.
End TableRow.

(** Lines 177-207: the row of a node. *)
Definition row_of (node : TreeNode.t) (indent : string) : TableRow.t :=
  let name := TreeNode.Name node in
  let name :=
    if TreeNode.IsDir node && negb (String.eqb (TreeNode.Name node) ".")
    then name +:+ "/" else name in
  let displayName :=
    if negb (String.eqb (TreeNode.Name node) ".") then indent +:+ name
    else name in
  let lines :=
    Itoa (TreeNode.Covered node) +:+ "/" +:+ Itoa (TreeNode.Total node) in
  let uncovered :=
    if negb (TreeNode.IsDir node)
       && (0 <? Z.of_nat (length (TreeNode.Uncovered node)))
    then Join (Itoa <$> TreeNode.Uncovered node) ","
    else EmptyString in
  TableRow.mk displayName (TreeNode.Coverage node) lines uncovered.

(** The rows that [addRows(t, node, depth)] appends to the table; [None]
    when [strings.Repeat] panics.  The children are visited by ascending
    [Name]; siblings of one name, which [buildTree] does not make
    (its nodes are kept under their own names), are here left in the order
    of the map. *)
Fixpoint addRows (node : TreeNode.t) (depth : Z) {struct node} :
    option (list TableRow.t) :=
  indent ← Repeat "  " depth;
  let rows :=
    if String.eqb (TreeNode.Name node) "." then []
    else [row_of node indent] in
  let children :=
    merge_sort by_Name
      (map_to_list
         ((λ child, (TreeNode.Name child, addRows child (incr64 depth)))
            <$> TreeNode.Children node)).*2 in
  below ← mapM snd children;
  Some (rows ++ concat below).

(** * Further sample inputs *)

(** Two subtests of [Foo], a [run] record, then [Foo] itself, and the
    package-level record. *)
Definition foo_stream : list TestEvent.t :=
  [sample_event "run" "p" "Foo";
   sample_event "pass" "p" "Foo/first_case";
   sample_event "fail" "p" "Foo/second/case";
   sample_event "fail" "p" "Foo";
   sample_event "fail" "p" EmptyString].

(** Two packages whose events alternate. *)
Definition interleaved_stream : list TestEvent.t :=
  [sample_event "pass" "p" "Foo"; sample_event "fail" "q" "Bar";
   sample_event "pass" "p" EmptyString; sample_event "fail" "q" EmptyString;
   sample_event "pass" "q" EmptyString].

(** A record whose path has colons and a space, as a path with a drive
    letter has. *)
Definition drive_record : string := "C:/my dir/a.go:12.3,14.5 2 1".



(** * Properties *)

(** ** Go's [int] *)

Lemma wrap64_small x : - 2 ^ 63 ≤ x ≤ max_int → wrap64 x = x.
Proof.
  unfold wrap64, max_int. intros H.
  rewrite Z.mod_small by lia. lia.
Qed.

Lemma wrap64_idemp x : wrap64 (wrap64 x) = wrap64 x.
Proof.
  unfold wrap64. replace ((x + 2 ^ 63) mod 2 ^ 64 - 2 ^ 63 + 2 ^ 63)
    with ((x + 2 ^ 63) mod 2 ^ 64) by lia.
  by rewrite Z.mod_mod.
Qed.

Lemma wrap64_add_l x y : wrap64 (wrap64 x + y) = wrap64 (x + y).
Proof.
  unfold wrap64. f_equal.
  replace ((x + 2 ^ 63) mod 2 ^ 64 - 2 ^ 63 + y + 2 ^ 63)
    with ((x + 2 ^ 63) mod 2 ^ 64 + y) by lia.
  rewrite Zplus_mod_idemp_l. f_equal. lia.
Qed.

Lemma wrap64_add_r x y : wrap64 (x + wrap64 y) = wrap64 (x + y).
Proof. by rewrite Z.add_comm, wrap64_add_l, Z.add_comm. Qed.

Lemma add64_comm a b : add64 a b = add64 b a.
Proof. unfold add64. by rewrite Z.add_comm. Qed.

Lemma add64_assoc a b c : add64 (add64 a b) c = add64 a (add64 b c).
Proof.
  unfold add64. rewrite wrap64_add_l, wrap64_add_r. f_equal. lia.
Qed.

(** ** Event aggregator *)

Section Aggregator.
Implicit Types (st : State) (event : TestEvent.t) (pkg parent : string).

Lemma packages_with_package pkg f st :
  packages (with_package pkg f st) = alter f pkg (packages st).
Proof. done. Qed.

Lemma ensure_package_packages pkg st :
  packages (ensure_package pkg st)
  = <[pkg := default (PackageResult.new pkg) (packages st !! pkg)]>
      (packages st).
Proof.
  unfold ensure_package. destruct (packages st !! pkg) as [r|] eqn:E; simpl.
  - by rewrite insert_id.
  - done.
Qed.

Lemma ensure_package_counters pkg st :
  testsPassed (ensure_package pkg st) = testsPassed st ∧
  testsFailed (ensure_package pkg st) = testsFailed st ∧
  testsDone (ensure_package pkg st) = testsDone st.
Proof. unfold ensure_package. by destruct (packages st !! pkg). Qed.

Lemma alter_lookup_Some {A} (f : A → A) (k : string) (m : gmap string A) x :
  m !! k = Some x → alter f k m = <[k := f x]> m.
Proof.
  intros H. apply map_eq. intros j. destruct (decide (j = k)) as [->|].
  - by rewrite lookup_alter_eq, lookup_insert_eq, H.
  - by rewrite lookup_alter_ne, lookup_insert_ne.
Qed.

(** The whole effect of [ingest] on the package map is an update of the
    entry of the event's package by [package_step]. *)
Lemma ingest_packages st event :
  packages (ingest st event)
  = <[TestEvent.Package event :=
        package_step event
          (default (PackageResult.new (TestEvent.Package event))
             (packages st !! TestEvent.Package event))]> (packages st).
Proof.
  unfold ingest, on_package, on_test, on_action, ensure_parent, with_parent,
    package_step, parent_step, subtest_name, parent_key.
  set (pkg := TestEvent.Package event).
  set (r0 := default _ _).
  destruct (SplitN2 (TestEvent.Test event) "/") as [first rest] eqn:ES.
  destruct (String.eqb (TestEvent.Test event) EmptyString) eqn:ET; simpl.
  - destruct (String.eqb (TestEvent.Action event) "pass") eqn:EP; simpl.
    + apply String.eqb_eq in EP. rewrite EP. simpl.
      rewrite ?packages_with_package, ensure_package_packages.
      by rewrite !alter_insert_eq.
    + destruct (String.eqb (TestEvent.Action event) "fail") eqn:EF; simpl.
      * rewrite ?packages_with_package, ensure_package_packages.
        by rewrite !alter_insert_eq.
      * by rewrite ensure_package_packages.
  - assert (∀ b, b && false = false) as Hf by (by intros []).
    rewrite !Hf.
    destruct (String.eqb (TestEvent.Action event) "pass") eqn:EP;
      [|destruct (String.eqb (TestEvent.Action event) "fail") eqn:EF];
      destruct rest as [sub|]; simpl;
      rewrite ?packages_with_package, ensure_package_packages, !alter_insert_eq;
      f_equal; fold r0.
    all: unfold PackageResult.set_ParentMap, PackageResult.set_HasTests; simpl.
    all: destruct (PackageResult.ParentMap r0 !! prettify first)
      as [pt|] eqn:EL; simpl; f_equal.
    all: rewrite <-?alter_compose, ?alter_insert_eq, ?insert_insert_eq;
      try done.
    all: try (by apply alter_lookup_Some).
    all: try (by rewrite insert_id).
    erewrite (alter_lookup_Some _ _ (PackageResult.ParentMap r0)) by done.
    by rewrite alter_insert_eq.
Qed.

Lemma ingest_counters st event :
  (testsPassed (ingest st event), testsFailed (ingest st event),
   testsDone (ingest st event))
  = if String.eqb (TestEvent.Test event) EmptyString then
      (testsPassed st, testsFailed st, testsDone st)
    else if String.eqb (TestEvent.Action event) "pass" then
      (incr64 (testsPassed st), testsFailed st, incr64 (testsDone st))
    else if String.eqb (TestEvent.Action event) "fail" then
      (testsPassed st, incr64 (testsFailed st), incr64 (testsDone st))
    else (testsPassed st, testsFailed st, testsDone st).
Proof.
  destruct (ensure_package_counters (TestEvent.Package event) st)
    as (H1 & H2 & H3).
  unfold ingest, on_package, on_test, on_action.
  destruct (SplitN2 (TestEvent.Test event) "/") as [first rest].
  destruct (String.eqb (TestEvent.Test event) EmptyString);
    destruct (String.eqb (TestEvent.Action event) "pass");
    destruct (String.eqb (TestEvent.Action event) "fail");
    destruct rest; simpl; by rewrite ?H1, ?H2, ?H3.
Qed.

(** The flag of a parent test is rewritten by the events that target it, and
    by no other event. *)
Lemma parent_flag_ingest st event pkg parent :
  parent_flag (ingest st event) pkg parent
  = if decide (targets pkg parent event)
    then Some (flag_step event (default false (parent_flag st pkg parent)))
    else parent_flag st pkg parent.
Proof.
  unfold parent_flag. rewrite ingest_packages.
  destruct (decide (TestEvent.Package event = pkg)) as [<-|Hp].
  2: { rewrite lookup_insert_ne by done.
       rewrite decide_False; [done|]. by intros (? & _). }
  rewrite lookup_insert_eq. simpl.
  set (r0 := default _ _).
  assert (packages st !! TestEvent.Package event ≫=
            (λ r, PackageResult.ParentMap r !! parent ≫=
               λ pt, Some (ParentTest.Passed pt))
          = PackageResult.ParentMap r0 !! parent ≫=
               λ pt, Some (ParentTest.Passed pt)) as ->.
  { unfold r0. by destruct (packages st !! TestEvent.Package event). }
  unfold package_step.
  destruct (String.eqb (TestEvent.Test event) EmptyString) eqn:ET.
  - apply String.eqb_eq in ET.
    rewrite decide_False by (by intros (_ & ? & _)).
    by destruct (String.eqb (TestEvent.Action event) "pass"),
      (String.eqb (TestEvent.Action event) "fail").
  - apply String.eqb_neq in ET. simpl.
    destruct (decide (parent_key event = parent)) as [<-|Hk].
    + rewrite decide_True by done.
      rewrite lookup_insert_eq. simpl. f_equal.
      unfold parent_step, flag_step.
      destruct (PackageResult.ParentMap r0 !! parent_key event) as [pt|]; simpl;
        by destruct (String.eqb (TestEvent.Action event) "pass"),
          (String.eqb (TestEvent.Action event) "fail"), (subtest_name event).
    + rewrite decide_False by (by intros (_ & _ & ?)).
      by rewrite lookup_insert_ne.
Qed.

Lemma ingest_all_snoc st events event :
  ingest_all st (events ++ [event]) = ingest (ingest_all st events) event.
Proof. unfold ingest_all. by rewrite foldl_app. Qed.

Lemma flag_step_true event b :
  flag_step event b = true ↔
  parent_pass event ∨ (b = true ∧ ¬ fail_event event).
Proof.
  unfold flag_step, parent_pass, fail_event.
  destruct (String.eqb (TestEvent.Action event) "pass") eqn:EP.
  - apply String.eqb_eq in EP. rewrite EP.
    destruct (subtest_name event); split.
    + intros ->. right. by split.
    + by intros [[_ ?]|[-> _]].
    + intros _. by left.
    + done.
  - apply String.eqb_neq in EP.
    destruct (String.eqb (TestEvent.Action event) "fail") eqn:EF.
    + apply String.eqb_eq in EF. split; [done|]. intros [[? _]|[_ ?]]; done.
    + apply String.eqb_neq in EF. split; [by right|].
      intros [[? _]|[? _]]; done.
Qed.

(** C1, as the program has it: after any stream of events, the [Passed] flag
    of a parent test is true exactly when the stream holds a pass event for
    the parent test itself that no fail event of that parent test (its own
    or a subtest's) follows.  So a failure clears the flag, pass events of
    subtests never set it, and it is a later pass event of the parent test
    itself, and that one only, that sets it again. *)
Theorem parent_flag_last_write events pkg parent :
  parent_flag (ingest_all initial events) pkg parent = Some true ↔
  ∃ before event after,
    events = before ++ event :: after ∧
    targets pkg parent event ∧ parent_pass event ∧
    Forall (λ e, ¬ (targets pkg parent e ∧ fail_event e)) after.
Proof.
  induction events as [|e0 events IH] using rev_ind.
  - split; [done|]. intros (before & ? & ? & H & _). by destruct before.
  - rewrite ingest_all_snoc, parent_flag_ingest. split.
    + case_decide as Ht.
      * intros [= [Hpp|[Hb Hnf]]%flag_step_true].
        { exists events, e0, []. by rewrite Forall_nil. }
        destruct (parent_flag (ingest_all initial events) pkg parent)
          as [[]|] eqn:E; try done.
        destruct (proj1 IH eq_refl) as (before & e & after & -> & ? & ? & ?).
        exists before, e, (after ++ [e0]). rewrite <-app_assoc. simpl.
        do 3 (split; [done|]).
        apply Forall_app. split; [done|]. apply Forall_singleton. tauto.
      * intros (before & e & after & -> & ? & ? & ?)%IH.
        exists before, e, (after ++ [e0]). rewrite <-app_assoc. simpl.
        do 3 (split; [done|]).
        apply Forall_app. split; [done|]. apply Forall_singleton. tauto.
    + intros (before & e & after & Heq & Ht & Hpp & Hall).
      destruct after as [|a after _] using rev_ind.
      * apply app_inj_tail in Heq as [-> ->].
        rewrite decide_True by done. f_equal. apply flag_step_true. by left.
      * rewrite app_comm_cons, app_assoc in Heq.
        apply app_inj_tail in Heq as [-> ->].
        apply Forall_app in Hall as [Hall Ha].
        apply (proj1 (Forall_singleton _ _)) in Ha. simpl in Ha.
        assert (parent_flag (ingest_all initial (before ++ e :: after))
                  pkg parent = Some true) as ->.
        { apply IH. by exists before, e, after. }
        case_decide as Ht'; [|done]. f_equal. apply flag_step_true.
        right. split; [done|]. tauto.
Qed.

(** C1, as the claim has it, fails: both events are pass/fail events of the
    parent test [Foo] of package [p], one of them is the failure of a
    subtest, and the flag ends up true. *)
Lemma failure_cleared_by_later_pass :
  Forall (targets "p" "Foo") fail_then_pass ∧
  Forall (λ e, TestEvent.Action e = "pass" ∨ fail_event e) fail_then_pass ∧
  Exists (λ e, fail_event e ∧ is_Some (subtest_name e)) fail_then_pass ∧
  parent_flag (ingest_all initial fail_then_pass) "p" "Foo" = Some true.
Proof.
  split_and!.
  - repeat constructor; done.
  - apply Forall_cons. split; [by right|].
    apply Forall_cons. split; [by left|]. constructor.
  - apply Exists_cons_hd. split; [done|]. by eexists.
  - by vm_compute.
Qed.

Lemma parent_step_other event pt :
  TestEvent.Action event ≠ "pass" → TestEvent.Action event ≠ "fail" →
  parent_step event pt = pt.
Proof.
  intros Hp%String.eqb_neq Hf%String.eqb_neq. unfold parent_step.
  by rewrite Hp, Hf.
Qed.

(** C10, as the program has it: a record whose action is neither pass nor
    fail leaves the three test counters and every other package's entry as
    they were; in the entry of its own package (created if need be) it
    changes nothing but [HasTests], set when the record carries a test
    identifier, and the parent map, where the entries present stay as they
    were and the one entry that can appear is an empty one (not passed, no
    subtests) under the parent name of the record's test identifier. *)
Theorem other_action_frame st event :
  TestEvent.Action event ≠ "pass" → TestEvent.Action event ≠ "fail" →
  let pkg := TestEvent.Package event in
  let r := default (PackageResult.new pkg) (packages st !! pkg) in
  testsPassed (ingest st event) = testsPassed st ∧
  testsFailed (ingest st event) = testsFailed st ∧
  testsDone (ingest st event) = testsDone st ∧
  (∀ p, p ≠ pkg → packages (ingest st event) !! p = packages st !! p) ∧
  ∃ r', packages (ingest st event) !! pkg = Some r' ∧
    PackageResult.Name r' = PackageResult.Name r ∧
    PackageResult.Passed r' = PackageResult.Passed r ∧
    PackageResult.Skipped r' = PackageResult.Skipped r ∧
    PackageResult.Duration r' = PackageResult.Duration r ∧
    PackageResult.HasTests r'
    = PackageResult.HasTests r
      || negb (String.eqb (TestEvent.Test event) EmptyString) ∧
    (∀ k pt, PackageResult.ParentMap r !! k = Some pt →
             PackageResult.ParentMap r' !! k = Some pt) ∧
    (∀ k pt, PackageResult.ParentMap r' !! k = Some pt →
             PackageResult.ParentMap r !! k = Some pt ∨
             (TestEvent.Test event ≠ EmptyString ∧ k = parent_key event ∧
              pt = ParentTest.new k)).
Proof.
  intros Hp Hf pkg r.
  pose proof (ingest_counters st event) as Hc.
  apply String.eqb_neq in Hp as Hp', Hf as Hf'. rewrite Hp', Hf' in Hc.
  assert (testsPassed (ingest st event) = testsPassed st ∧
          testsFailed (ingest st event) = testsFailed st ∧
          testsDone (ingest st event) = testsDone st) as (-> & -> & ->).
  { destruct (String.eqb (TestEvent.Test event) EmptyString);
      by injection Hc as -> -> ->. }
  do 3 (split; [done|]).
  rewrite ingest_packages. fold pkg r. split.
  { intros p Hne. by rewrite lookup_insert_ne. }
  eexists. split; [apply lookup_insert_eq|].
  unfold package_step. rewrite Hp', Hf'.
  destruct (String.eqb (TestEvent.Test event) EmptyString) eqn:ET; simpl.
  - rewrite orb_false_r. do 5 (split; [done|]). split; [done|]. by left.
  - rewrite orb_true_r. do 5 (split; [done|]).
    rewrite parent_step_other by done.
    destruct (PackageResult.ParentMap r !! parent_key event) as [pt0|] eqn:EL;
      simpl.
    + rewrite insert_id by done. split; [done|]. by left.
    + split.
      * intros k pt Hk. rewrite lookup_insert_ne; [done|]. congruence.
      * intros k pt. destruct (decide (parent_key event = k)) as [<-|Hne].
        -- rewrite lookup_insert_eq. intros [= <-]. right.
           by apply String.eqb_neq in ET.
        -- rewrite lookup_insert_ne by done. by left.
Qed.

(** The frame at work: a [run] record for a second test of package [p]. *)
Lemma other_action_frame_witness :
  TestEvent.Action run_Foo ≠ "pass" ∧ TestEvent.Action run_Foo ≠ "fail" ∧
  testsPassed (ingest seen_Bar run_Foo) = testsPassed seen_Bar ∧
  testsFailed (ingest seen_Bar run_Foo) = testsFailed seen_Bar ∧
  testsDone (ingest seen_Bar run_Foo) = testsDone seen_Bar.
Proof.
  split; [done|]. split; [done|].
  destruct (other_action_frame seen_Bar run_Foo) as (H1 & H2 & H3 & _);
    [done|done|].
  exact (conj H1 (conj H2 H3)).
Defined.

(** C10, as the claim has it, fails: package [p] has its entry and
    [HasTests] set already, the record is a [run] record, and the parent map
    of [p] gains the entry [Foo]. *)
Lemma run_record_creates_parent_entry :
  TestEvent.Action run_Foo ≠ "pass" ∧ TestEvent.Action run_Foo ≠ "fail" ∧
  has_tests seen_Bar "p" = true ∧
  (packages seen_Bar !! "p" ≫= λ r, PackageResult.ParentMap r !! "Foo") = None ∧
  (packages (ingest seen_Bar run_Foo) !! "p" ≫=
     λ r, PackageResult.ParentMap r !! "Foo") = Some (ParentTest.new "Foo").
Proof. split_and!; done || by vm_compute. Qed.

(** *** Which packages have an entry, and which have [HasTests] set *)

Lemma ingest_all_cons st event events :
  ingest_all st (event :: events) = ingest_all (ingest st event) events.
Proof. done. Qed.

Lemma dom_ingest_all st events :
  dom (packages (ingest_all st events))
  = dom (packages st) ∪ distinct_packages events.
Proof.
  unfold distinct_packages.
  revert st. induction events as [|e events IH]; intros st; simpl.
  - set_solver.
  - fold (ingest_all (ingest st e) events).
    rewrite IH, ingest_packages, dom_insert_L. set_solver.
Qed.

Lemma has_tests_ingest st event pkg :
  has_tests (ingest st event) pkg
  = has_tests st pkg
    || (bool_decide (TestEvent.Package event = pkg)
        && negb (String.eqb (TestEvent.Test event) EmptyString)).
Proof.
  unfold has_tests. rewrite ingest_packages. case_bool_decide as Hp.
  - subst pkg. rewrite lookup_insert_eq. simpl.
    set (o := packages st !! TestEvent.Package event).
    assert (default false (PackageResult.HasTests <$> o)
            = PackageResult.HasTests
                (default (PackageResult.new (TestEvent.Package event)) o))
      as ->.
    { by destruct o. }
    unfold package_step.
    destruct (String.eqb (TestEvent.Test event) EmptyString); simpl.
    + rewrite orb_false_r.
      by destruct (String.eqb (TestEvent.Action event) "pass"),
        (String.eqb (TestEvent.Action event) "fail").
    + by rewrite orb_true_r.
  - rewrite lookup_insert_ne by done. by rewrite orb_false_r.
Qed.

Lemma has_tests_ingest_all st events pkg :
  has_tests (ingest_all st events) pkg = true ↔
  has_tests st pkg = true ∨
  ∃ e, e ∈ events ∧ TestEvent.Package e = pkg ∧ TestEvent.Test e ≠ EmptyString.
Proof.
  revert st. induction events as [|e events IH]; intros st.
  - simpl. split; [by left|]. intros [?|(? & []%elem_of_nil & _)]. done.
  - rewrite ingest_all_cons, IH, has_tests_ingest.
    rewrite orb_true_iff, andb_true_iff, bool_decide_eq_true, negb_true_iff.
    rewrite String.eqb_neq. split.
    + intros [[?|[? ?]]|(e' & ? & ?)]; [by left|right..].
      * exists e. split; [left|done].
      * exists e'. split; [by right|done].
    + intros [?|(e' & [->|?]%elem_of_cons & ? & ?)].
      * by left; left.
      * left. by right.
      * right. by exists e'.
Qed.

End Aggregator.

(** ** Finalization *)

Section Finalization.
Implicit Types (m : gmap string PackageResult.t) (s : Suites).
Implicit Types (l order : list (string * PackageResult.t)).

Lemma tally_snoc P l entry :
  tally P (l ++ [entry]) = tally P l + (if P entry.2 then 1 else 0).
Proof.
  unfold tally. rewrite filter_app, length_app, Nat2Z.inj_add. f_equal.
  rewrite filter_cons, filter_nil. by destruct (P entry.2).
Qed.

Lemma tally_cons P l entry :
  tally P (entry :: l) = (if P entry.2 then 1 else 0) + tally P l.
Proof.
  unfold tally. rewrite filter_cons. destruct (P entry.2); simpl; lia.
Qed.

Lemma tally_perm P l l' : l ≡ₚ l' → tally P l = tally P l'.
Proof. unfold tally. by intros ->. Qed.

Lemma tally_nonneg P l : 0 ≤ tally P l.
Proof. unfold tally. lia. Qed.

(** Every entry is in exactly one class. *)
Lemma tally_classes l :
  tally is_passed l + tally is_failed l + tally is_skipped l
  = Z.of_nat (length l).
Proof.
  induction l as [|[k r] l IH]; [done|].
  rewrite !tally_cons. simpl length. rewrite Nat2Z.inj_succ, <-IH.
  unfold is_passed, is_failed, is_skipped. simpl.
  destruct (PackageResult.HasTests r), (PackageResult.Passed r); simpl; lia.
Qed.

Lemma incr64_wrap64 x : incr64 (wrap64 x) = wrap64 (x + 1).
Proof. unfold incr64, add64. apply wrap64_add_l. Qed.

Lemma finalize_ordered_snoc order entry m :
  finalize_ordered (order ++ [entry]) m
  = classify (finalize_ordered order m) entry.
Proof. unfold finalize_ordered. by rewrite foldl_app. Qed.

(** The three counters hold the sizes of the three classes, as [int]s. *)
Lemma finalize_ordered_suites order m :
  (finalize_ordered order m).2
  = mkSuites (wrap64 (tally is_passed order)) (wrap64 (tally is_failed order))
      (wrap64 (tally is_skipped order)).
Proof.
  induction order as [|[k r] order IH] using rev_ind; [done|].
  rewrite finalize_ordered_snoc, !tally_snoc.
  destruct (finalize_ordered order m) as [m' s]. simpl in *. subst s.
  unfold classify, is_passed, is_failed, is_skipped. simpl.
  destruct (PackageResult.HasTests r), (PackageResult.Passed r); simpl;
    rewrite ?incr64_wrap64, ?Z.add_0_r; done.
Qed.

(** The order in which the loop visits the packages is immaterial to the
    counters. *)
Lemma finalize_suites_order order order' m m' :
  order ≡ₚ order' →
  (finalize_ordered order m).2 = (finalize_ordered order' m').2.
Proof.
  intros Hp. rewrite !finalize_ordered_suites.
  by rewrite !(tally_perm _ _ _ Hp).
Qed.

Lemma finalize_ordered_map order m :
  (finalize_ordered order m).1 = foldl mark m order.
Proof.
  induction order as [|[k r] order IH] using rev_ind; [done|].
  rewrite finalize_ordered_snoc, foldl_app. simpl. rewrite <-IH.
  destruct (finalize_ordered order m) as [m' s]. simpl.
  unfold classify, mark, is_skipped. simpl.
  by destruct (PackageResult.HasTests r), (PackageResult.Passed r).
Qed.

Lemma foldl_mark_other l m k :
  k ∉ l.*1 → foldl mark m l !! k = m !! k.
Proof.
  revert m. induction l as [|[k' r] l IH]; intros m Hk; [done|].
  simpl in *. apply not_elem_of_cons in Hk as [Hne Hk].
  rewrite IH by done. unfold mark. simpl.
  destruct (is_skipped r); [|done]. by rewrite lookup_insert_ne.
Qed.

Lemma foldl_mark_skipped l m k r :
  NoDup l.*1 → (k, r) ∈ l → is_skipped r = true →
  foldl mark m l !! k = Some (PackageResult.set_Skipped true r).
Proof.
  revert m. induction l as [|[k' r'] l IH]; intros m Hnd Hin Hs.
  { by apply elem_of_nil in Hin. }
  simpl in *. apply NoDup_cons in Hnd as [Hk' Hnd].
  apply elem_of_cons in Hin as [[= <- <-]|Hin].
  - rewrite foldl_mark_other by done. unfold mark. simpl. rewrite Hs.
    apply lookup_insert_eq.
  - by apply IH.
Qed.

(** C2: a package of the stream none of whose events carries a test
    identifier is marked skipped by the finalization loop, whatever the
    order of the loop and whatever package-level pass or fail events it got;
    it adds one to the skipped counter and nothing to the other two: the
    counters are those of the run without that package, with the skipped
    counter incremented. *)
Theorem untested_package_is_skipped events pkg order :
  (∃ e, e ∈ events ∧ TestEvent.Package e = pkg) →
  (∀ e, e ∈ events → TestEvent.Package e = pkg →
        TestEvent.Test e = EmptyString) →
  order ≡ₚ map_to_list (packages (ingest_all initial events)) →
  has_tests (ingest_all initial events) pkg = false ∧
  PackageResult.Skipped <$>
    (finalize_ordered order (packages (ingest_all initial events))).1 !! pkg
  = Some true ∧
  (finalize_ordered order (packages (ingest_all initial events))).2
  = let s := (finalize (delete pkg (packages (ingest_all initial events)))).2 in
    mkSuites (suitesPassed s) (suitesFailed s) (incr64 (suitesSkipped s)).
Proof.
  intros (e & He & Hpkg) Hnone Horder.
  set (m := packages (ingest_all initial events)).
  assert (has_tests (ingest_all initial events) pkg = false) as Hht.
  { apply not_true_is_false. intros [?|(e' & ? & ? & ?)]%has_tests_ingest_all.
    - done.
    - naive_solver. }
  assert (pkg ∈ dom m) as [r Hr]%elem_of_dom.
  { unfold m. rewrite dom_ingest_all. apply elem_of_union_r.
    unfold distinct_packages. apply elem_of_list_to_set, list_elem_of_fmap.
    by exists e. }
  assert (is_skipped r = true) as Hs.
  { unfold has_tests in Hht. fold m in Hht. rewrite Hr in Hht. simpl in Hht.
    unfold is_skipped. by rewrite Hht. }
  split; [done|]. split.
  - rewrite finalize_ordered_map.
    rewrite (foldl_mark_skipped order m pkg r); [done| | |done].
    + rewrite Horder. apply NoDup_fst_map_to_list.
    + rewrite Horder. by apply elem_of_map_to_list.
  - unfold finalize. rewrite !finalize_ordered_suites. simpl.
    assert (order ≡ₚ (pkg, r) :: map_to_list (delete pkg m)) as Hp.
    { rewrite Horder. rewrite <-map_to_list_insert by apply lookup_delete_eq.
      by rewrite insert_delete_id. }
    rewrite !(tally_perm _ _ _ Hp), !tally_cons. simpl.
    unfold is_passed, is_failed. unfold is_skipped in Hs.
    apply negb_true_iff in Hs. rewrite Hs. simpl.
    unfold is_skipped at 1. rewrite Hs. simpl.
    rewrite incr64_wrap64. do 2 f_equal. lia.
Qed.

(** Package [q] of [two_packages] has a package-level pass record only. *)
Lemma untested_package_is_skipped_witness :
  (∃ e, e ∈ two_packages ∧ TestEvent.Package e = "q") ∧
  (∀ e, e ∈ two_packages → TestEvent.Package e = "q" →
        TestEvent.Test e = EmptyString) ∧
  PackageResult.Skipped <$>
    (finalize (packages (ingest_all initial two_packages))).1 !! "q"
  = Some true.
Proof.
  assert (∃ e, e ∈ two_packages ∧ TestEvent.Package e = "q") as H1.
  { exists (sample_event "pass" "q" EmptyString). split; [|reflexivity].
    do 2 apply list_elem_of_further. apply list_elem_of_here. }
  assert (∀ e, e ∈ two_packages → TestEvent.Package e = "q" →
               TestEvent.Test e = EmptyString) as H2.
  { intros e He Hq. unfold two_packages in He.
    repeat (apply elem_of_cons in He as [->|He]); try done.
    by apply elem_of_nil in He. }
  split; [exact H1|]. split; [exact H2|].
  exact (proj1 (proj2 (untested_package_is_skipped two_packages "q" _ H1 H2
                         (reflexivity _)))).
Defined.

End Finalization.

(** ** The input loop over lines *)

Section Stream.
Variable Unmarshal : string → option TestEvent.t.

Lemma ingest_lines_events st lines :
  ingest_lines Unmarshal st lines = ingest_all st (omap Unmarshal lines).
Proof.
  revert st. induction lines as [|line lines IH]; intros st; [done|].
  simpl. rewrite IH. unfold ingest_line. by destruct (Unmarshal line).
Qed.

(** C5: once the stream has been read and the finalization loop has run, in
    whatever order, the three suite counters add up to the number of
    distinct package identifiers of the decoded records, that number being
    one that an [int] holds. *)
Theorem suites_sum_to_distinct_packages lines order :
  order ≡ₚ map_to_list (packages (ingest_lines Unmarshal initial lines)) →
  Z.of_nat (size (distinct_packages (omap Unmarshal lines))) ≤ max_int →
  let suites :=
    (finalize_ordered order
       (packages (ingest_lines Unmarshal initial lines))).2 in
  suitesPassed suites + suitesFailed suites + suitesSkipped suites
  = Z.of_nat (size (distinct_packages (omap Unmarshal lines))).
Proof.
  intros Horder Hmax. simpl. rewrite finalize_ordered_suites. simpl.
  assert (length order = size (distinct_packages (omap Unmarshal lines)))
    as Hlen.
  { rewrite Horder, length_map_to_list, <-size_dom, ingest_lines_events.
    rewrite dom_ingest_all. simpl. by rewrite dom_empty_L, union_empty_l_L. }
  rewrite <-Hlen in *.
  pose proof (tally_classes order) as Hsum.
  pose proof (tally_nonneg is_passed order).
  pose proof (tally_nonneg is_failed order).
  pose proof (tally_nonneg is_skipped order).
  assert (- 2 ^ 63 ≤ 0) by done.
  rewrite !wrap64_small by lia. done.
Qed.

End Stream.

(** One decoded record and one package. *)
Lemma suites_sum_to_distinct_packages_witness :
  Z.of_nat (size (distinct_packages (omap sample_Unmarshal sample_stream)))
  ≤ max_int ∧
  suitesPassed
    (finalize (packages (ingest_lines sample_Unmarshal initial sample_stream))).2
  + suitesFailed
      (finalize (packages (ingest_lines sample_Unmarshal initial sample_stream))).2
  + suitesSkipped
      (finalize (packages (ingest_lines sample_Unmarshal initial sample_stream))).2
  = Z.of_nat (size (distinct_packages (omap sample_Unmarshal sample_stream))).
Proof.
  assert (Z.of_nat
            (size (distinct_packages (omap sample_Unmarshal sample_stream)))
          ≤ max_int) as H by (by vm_compute).
  split; [exact H|].
  exact (suites_sum_to_distinct_packages sample_Unmarshal sample_stream _
           (reflexivity _) H).
Defined.

(** ** The coverage profile *)

Section Profile.
Implicit Types (result : gmap string FileCoverage.t) (fc : FileCoverage.t).
Implicit Types (line filePath : string) (lines : list string).

Lemma record_line_matched result line :
  record_line result line
  = match matched line with
    | None => result
    | Some (filePath, lineNum, count) =>
        <[filePath :=
            add_line lineNum count
              (default (FileCoverage.new filePath) (result !! filePath))]>
          result
    end.
Proof.
  unfold record_line, matched. destruct (HasPrefix line "mode:"); [done|].
  destruct (FindStringSubmatch coverRe line) as [m|]; [|done].
  destruct (result !! (m !!! 1%nat)) as [fc|] eqn:E; simpl.
  - by apply alter_lookup_Some.
  - by rewrite alter_insert_eq.
Qed.

Lemma scan_snoc result lines line :
  scan result (lines ++ [line]) = record_line (scan result lines) line.
Proof. unfold scan. by rewrite foldl_app. Qed.

Lemma line_numbers_snoc sel filePath lines line :
  line_numbers sel filePath (lines ++ [line])
  = line_numbers sel filePath lines ++ line_numbers sel filePath [line].
Proof. unfold line_numbers. by rewrite omap_app. Qed.

Lemma line_numbers_nil sel filePath lines :
  line_numbers any_count filePath lines = [] →
  line_numbers sel filePath lines = [].
Proof.
  unfold line_numbers. induction lines as [|l lines IH]; [done|]. simpl.
  destruct (matched l) as [[[f n] c]|]; simpl; [|done].
  unfold any_count. rewrite andb_true_r.
  by destruct (bool_decide (f = filePath)).
Qed.

(** The three sets of a file's entry hold the line numbers of its records:
    all of them, those hit, those not hit. *)
Lemma scan_sets lines filePath :
  FileCoverage.Total <$> scan ∅ lines !! filePath
  = match line_numbers any_count filePath lines with
    | [] => None
    | n :: l => Some (list_to_set (n :: l))
    end
  ∧ ∀ fc, scan ∅ lines !! filePath = Some fc →
      FileCoverage.Covered fc = list_to_set (line_numbers hit filePath lines) ∧
      FileCoverage.Uncovered fc
      = list_to_set (line_numbers not_hit filePath lines).
Proof.
  induction lines as [|line lines [IHt IH]] using rev_ind.
  { split; [done|]. intros fc H. change (scan ∅ []) with
      (∅ : gmap string FileCoverage.t) in H. by apply lookup_empty_Some in H. }
  rewrite scan_snoc, record_line_matched, !line_numbers_snoc.
  unfold line_numbers at 2 4 6. simpl.
  destruct (matched line) as [[[f n] c]|] eqn:Em; simpl.
  2: { rewrite !app_nil_r. by split. }
  case_bool_decide as Hf; simpl.
  2: { rewrite !app_nil_r, lookup_insert_ne by done. by split. }
  subst f. rewrite lookup_insert_eq. simpl.
  destruct (scan ∅ lines !! filePath) as [fc|] eqn:E; simpl in *.
  - destruct (IH fc eq_refl) as [Hc Hu].
    destruct (line_numbers any_count filePath lines) as [|n0 l0] eqn:El;
      [done|]. injection IHt as Ht. split.
    + simpl. f_equal. rewrite list_to_set_app_L. simpl in *.
      clear -Ht. revert Ht. generalize (list_to_set l0 : gset Z).
      intros X Ht. unfold add_line. destruct (0 <? c); simpl; set_solver.
    + intros fc' [= <-]. rewrite !list_to_set_app_L. unfold hit, not_hit.
      clear -Hc Hu. unfold add_line.
      destruct (0 <? c); simpl; split; set_solver.
  - destruct (line_numbers any_count filePath lines) as [|n0 l0] eqn:El;
      [|done].
    rewrite !(line_numbers_nil _ _ _ El). simpl. split.
    + f_equal. unfold add_line. destruct (0 <? c); simpl; set_solver.
    + intros fc' [= <-]. unfold hit, not_hit, add_line.
      destruct (0 <? c); simpl; split; set_solver.
Qed.

Lemma size_list_to_set_remove_dups (l : list Z) :
  size (list_to_set l : gset Z) = length (remove_dups l).
Proof.
  rewrite <-(size_list_to_set (C:=gset Z) (remove_dups l))
    by apply NoDup_remove_dups.
  f_equal. apply set_eq. intros x.
  by rewrite !elem_of_list_to_set, elem_of_remove_dups.
Qed.

(** C8: in the map that [parseCoverProfile] returns, the three sets of a
    file hold the line numbers of its records (all of them, those with a
    positive hit count, the others), whatever the number of records per line
    number: the size of [Total] is the number of distinct line numbers, and
    a line number recorded both with a positive and with a zero hit count is
    in [Covered] and in [Uncovered]. *)
Theorem duplicate_lines_count_once (Open : FileSystem) path file filePath fc :
  Open path = inr file →
  (parseCoverProfile Open path).1 ≫= (.!! filePath) = Some fc →
  FileCoverage.Total fc
  = list_to_set (line_numbers any_count filePath (lines file)) ∧
  FileCoverage.Covered fc
  = list_to_set (line_numbers hit filePath (lines file)) ∧
  FileCoverage.Uncovered fc
  = list_to_set (line_numbers not_hit filePath (lines file)) ∧
  size (FileCoverage.Total fc)
  = length (remove_dups (line_numbers any_count filePath (lines file))) ∧
  ∀ n, n ∈ line_numbers hit filePath (lines file) →
       n ∈ line_numbers not_hit filePath (lines file) →
       n ∈ FileCoverage.Covered fc ∧ n ∈ FileCoverage.Uncovered fc.
Proof.
  intros HO. unfold parseCoverProfile. rewrite HO. simpl. intros Hfc.
  destruct (scan_sets (lines file) filePath) as [Ht Hcu].
  destruct (Hcu fc Hfc) as [Hc Hu]. rewrite Hfc in Ht. simpl in Ht.
  assert (FileCoverage.Total fc
          = list_to_set (line_numbers any_count filePath (lines file))) as HT.
  { destruct (line_numbers any_count filePath (lines file)); [done|].
    by injection Ht. }
  split; [done|]. split; [done|]. split; [done|]. split.
  - rewrite HT. apply size_list_to_set_remove_dups.
  - intros n H1 H2. rewrite Hc, Hu. by rewrite !elem_of_list_to_set.
Qed.

(** Line 7 of [f.go] is recorded three times and counted once. *)
Lemma duplicate_lines_count_once_witness :
  sample_fs "cover.out" = inr (mkFile overlapping_profile None) ∧
  (parseCoverProfile sample_fs "cover.out").1 ≫= (.!! "f.go")
  = Some overlapping_entry ∧
  size (FileCoverage.Total overlapping_entry)
  = length (remove_dups (line_numbers any_count "f.go" overlapping_profile)).
Proof.
  assert ((parseCoverProfile sample_fs "cover.out").1 ≫= (.!! "f.go")
          = Some overlapping_entry) as H by (vm_compute; reflexivity).
  split; [reflexivity|]. split; [exact H|].
  exact (proj1 (proj2 (proj2 (proj2
    (duplicate_lines_count_once sample_fs "cover.out" _ "f.go" _ eq_refl H))))).
Defined.

(** The sets of every entry: [Covered] and [Uncovered] make up [Total]. *)
Lemma scan_union lines filePath fc :
  scan ∅ lines !! filePath = Some fc →
  FileCoverage.Covered fc ∪ FileCoverage.Uncovered fc = FileCoverage.Total fc.
Proof.
  revert fc. induction lines as [|line lines IH] using rev_ind; intros fc.
  { intros H. change (scan ∅ []) with (∅ : gmap string FileCoverage.t) in H.
    by apply lookup_empty_Some in H. }
  rewrite scan_snoc, record_line_matched.
  destruct (matched line) as [[[f n] c]|]; [|apply IH].
  destruct (decide (f = filePath)) as [->|Hne].
  2: { rewrite lookup_insert_ne by done. apply IH. }
  rewrite lookup_insert_eq. intros [= <-].
  assert (FileCoverage.Covered
            (default (FileCoverage.new filePath) (scan ∅ lines !! filePath))
          ∪ FileCoverage.Uncovered
              (default (FileCoverage.new filePath) (scan ∅ lines !! filePath))
          = FileCoverage.Total
              (default (FileCoverage.new filePath) (scan ∅ lines !! filePath)))
    as Hold.
  { destruct (scan ∅ lines !! filePath) as [fc0|]; simpl; [by apply IH|].
    set_solver. }
  revert Hold. generalize (default (FileCoverage.new filePath)
                             (scan ∅ lines !! filePath)).
  intros fc0 Hold. unfold add_line. destruct (0 <? c); simpl; set_solver.
Qed.

(** *** Lines that hold no record *)


End Profile.



(** ** The coverage stage of [main] *)

(** C7, as the program has it: [parseCoverProfile] returns an error exactly
    when the file cannot be opened or when the scanner of the opened file
    reports an error; in the first case no map comes with the error, in the
    second the map of the lines read so far does; on any error the caller
    prints it and ends the run with status 1, and without an error the run
    goes on and ends with status 0. *)
Theorem parse_error_cases (Open : FileSystem) path :
  (∀ err, (parseCoverProfile Open path).2 = Some err ↔
          Open path = inl err ∨
          ∃ file, Open path = inr file ∧ Err file = Some err) ∧
  (∀ err, Open path = inl err →
          parseCoverProfile Open path = (None, Some err)) ∧
  (∀ file, Open path = inr file →
           parseCoverProfile Open path
           = (Some (scan ∅ (lines file)), Err file)) ∧
  (∀ err, (parseCoverProfile Open path).2 = Some err →
          coverage_stage Open path = Exit 1 (error_line err)) ∧
  ((parseCoverProfile Open path).2 = None →
   exit_code (coverage_stage Open path) = 0).
Proof.
  unfold coverage_stage, parseCoverProfile.
  destruct (Open path) as [e|file]; simpl.
  - split_and!; try done.
    + intros err. split; [intros [= ->]; by left|].
      intros [[= ->]|(? & [=] & _)]; done.
    + by intros err [= ->].
    + by intros err [= ->].
  - split_and!; try done.
    + intros err. split.
      * intros H. right. by exists file.
      * by intros [[=]|(? & [= <-] & ?)].
    + by intros f [= <-].
    + by intros err ->.
    + by intros ->.
Qed.

(** A path that does not open. *)
Lemma parse_error_cases_witness :
  (parseCoverProfile sample_fs "missing.out").2
  = Some "open missing.out: no such file or directory" ∧
  coverage_stage sample_fs "missing.out"
  = Exit 1 (error_line "open missing.out: no such file or directory").
Proof.
  assert ((parseCoverProfile sample_fs "missing.out").2
          = Some "open missing.out: no such file or directory") as H
    by reflexivity.
  split; [exact H|].
  destruct (parse_error_cases sample_fs "missing.out") as (_ & _ & _ & Hexit & _).
  exact (Hexit _ H).
Defined.

(** C7, as the claim has it, fails: the path opens, the scanner reports that
    it cannot be read, and [parseCoverProfile] returns that error, with an
    empty map, which ends the run with status 1. *)
Lemma scanner_error_is_returned :
  (∃ file, directory_fs "." = inr file) ∧
  parseCoverProfile directory_fs "." = (Some ∅, Some "read .: is a directory") ∧
  coverage_stage directory_fs "."
  = Exit 1 (error_line "read .: is a directory").
Proof. split; [by eexists|]. split; reflexivity. Qed.

(** ** The coverage tree *)

Section Tree.
Implicit Types (node child : TreeNode.t) (cs : gmap string TreeNode.t).
Implicit Types (parts rest : list string) (fc : FileCoverage.t).

Lemma aggregate_file node :
  TreeNode.IsDir node = false → aggregate node = node.
Proof. destruct node. simpl. by intros ->. Qed.

Lemma aggregate_dir node :
  TreeNode.IsDir node = true →
  aggregate node
  = let children := aggregate <$> TreeNode.Children node in
    TreeNode.mk (TreeNode.Name node) true children
      (sum_Covered children) (sum_Total children) (TreeNode.Uncovered node)
      (if 0 <? sum_Total children
       then percentage (sum_Covered children) (sum_Total children)
       else TreeNode.Coverage node).
Proof. destruct node. simpl. by intros ->. Qed.

Lemma leaf_sum_dir f node :
  TreeNode.IsDir node = true →
  leaf_sum f node = zsum (leaf_sum f) (TreeNode.Children node).
Proof.
  destruct node. simpl. intros ->. unfold zsum. by rewrite map_fold_fmap.
Qed.

Lemma leaf_sum_file f node :
  TreeNode.IsDir node = false → leaf_sum f node = f node.
Proof. destruct node. simpl. by intros ->. Qed.

Lemma zsum_empty {A} (f : A → Z) : zsum f ∅ = 0.
Proof. apply map_fold_empty. Qed.

Lemma zsum_insert {A} (f : A → Z) (m : gmap string A) k x :
  m !! k = None → zsum f (<[k := x]> m) = zsum f m + f x.
Proof.
  intros H. unfold zsum. rewrite map_fold_insert_L; [done| |done].
  intros. lia.
Qed.

Lemma zsum_replace {A} (f : A → Z) (m : gmap string A) k x y :
  m !! k = Some x → zsum f (<[k := y]> m) = zsum f m - f x + f y.
Proof.
  intros H. rewrite <-(insert_delete_id m k x H) at 2.
  rewrite <-insert_delete_eq.
  rewrite !zsum_insert by apply lookup_delete_eq. lia.
Qed.

Lemma zsum_wrap_ext {A} (f g : A → Z) (m : gmap string A) :
  (∀ k x, m !! k = Some x → wrap64 (f x) = wrap64 (g x)) →
  wrap64 (zsum f m) = wrap64 (zsum g m).
Proof.
  induction m as [|k x m Hk IH] using map_ind; intros H.
  { by rewrite !zsum_empty. }
  rewrite !zsum_insert by done.
  rewrite <-wrap64_add_l, <-wrap64_add_r, IH, (H k x).
  - by rewrite wrap64_add_l, wrap64_add_r.
  - apply lookup_insert_eq.
  - intros j y Hj. apply (H j). rewrite lookup_insert_ne; [done|]. congruence.
Qed.

(** The sums of [aggregate] are the sums in [Z], taken as [int]s. *)
Lemma sum64_zsum (f : TreeNode.t → Z) cs :
  map_fold (λ _ child acc, add64 acc (f child)) 0 cs = wrap64 (zsum f cs).
Proof.
  induction cs as [|k x m Hk IH] using map_ind.
  { by rewrite zsum_empty, map_fold_empty. }
  rewrite zsum_insert by done.
  rewrite map_fold_insert_L; [| |done].
  - rewrite IH. unfold add64. by rewrite wrap64_add_l.
  - intros. rewrite !add64_assoc. f_equal. apply add64_comm.
Qed.

Lemma zsum_fmap {A B} (f : B → Z) (g : A → B) (m : gmap string A) :
  zsum f (g <$> m) = zsum (f ∘ g) m.
Proof. unfold zsum. by rewrite map_fold_fmap. Qed.

Lemma lsum_perm {A} (f : A → Z) (l l' : list (string * A)) :
  l ≡ₚ l' → lsum f l = lsum f l'.
Proof.
  unfold lsum. induction 1; simpl; [done|congruence|lia|congruence].
Qed.

Lemma lsum_nonneg {A} (f : A → Z) (l : list (string * A)) :
  (∀ x, 0 ≤ f x) → 0 ≤ lsum f l.
Proof.
  intros H. unfold lsum. induction l as [|e l IH]; simpl; [done|].
  specialize (H e.2). lia.
Qed.

Lemma lsum_snoc {A} (f : A → Z) (l : list (string * A)) entry :
  lsum f (l ++ [entry]) = lsum f l + f entry.2.
Proof.
  rewrite (lsum_perm f (l ++ [entry]) (entry :: l)); [done|].
  by rewrite Permutation_app_comm.
Qed.

Lemma zsum_lsum {A} (f : A → Z) (m : gmap string A) :
  zsum f m = lsum f (map_to_list m).
Proof.
  unfold zsum, lsum. rewrite map_fold_foldr.
  induction (map_to_list m) as [|[k x] l IH]; simpl; congruence.
Qed.

Lemma foldl_add64 {A} (f : A → Z) (l : list (string * A)) a :
  foldl (λ acc entry, add64 acc (f entry.2)) (wrap64 a) l
  = wrap64 (a + lsum f l).
Proof.
  revert a. induction l as [|x l IH]; intros a; simpl.
  - f_equal. lia.
  - unfold add64 at 2. rewrite wrap64_add_l, IH. f_equal.
    change (lsum f (x :: l)) with (lsum f l + f x.2). lia.
Qed.

(** The order in which [aggregate] visits the children is immaterial. *)
Lemma sum64_order (f : TreeNode.t → Z) cs (order : list (string * TreeNode.t)) :
  order ≡ₚ map_to_list cs →
  foldl (λ acc entry, add64 acc (f entry.2)) 0 order
  = map_fold (λ _ child acc, add64 acc (f child)) 0 cs.
Proof.
  intros Hp. rewrite sum64_zsum, zsum_lsum, <-(lsum_perm f _ _ Hp).
  apply (foldl_add64 f order 0).
Qed.

Lemma all_nodes_inv P node :
  all_nodes P node →
  P node ∧
  ∀ k child, TreeNode.Children node !! k = Some child → all_nodes P child.
Proof. by inversion 1. Qed.

(** After [aggregate], every directory of a tree whose files are leaves
    holds the sums over its children. *)
Lemma aggregate_summed node :
  all_nodes leaf_like node → all_nodes summed (aggregate node).
Proof.
  induction 1 as [node Hleaf _ IH].
  destruct (TreeNode.IsDir node) eqn:Ed.
  - rewrite aggregate_dir by done. constructor; simpl.
    + by intros _.
    + intros k child. rewrite lookup_fmap.
      destruct (TreeNode.Children node !! k) as [c|] eqn:Ec; [|done].
      intros [= <-]. by apply (IH k).
  - rewrite aggregate_file by done. constructor.
    + intros ?. congruence.
    + rewrite Hleaf by done. apply map_Forall_empty.
Qed.

(** The counts that [aggregate] leaves on a node are, as [int]s, the sums
    over the file nodes below it. *)
Lemma aggregate_leaf_sum node :
  all_nodes leaf_like node →
  wrap64 (TreeNode.Covered (aggregate node))
  = wrap64 (leaf_sum TreeNode.Covered node) ∧
  wrap64 (TreeNode.Total (aggregate node))
  = wrap64 (leaf_sum TreeNode.Total node).
Proof.
  induction 1 as [node Hleaf _ IH].
  destruct (TreeNode.IsDir node) eqn:Ed.
  - rewrite aggregate_dir, !leaf_sum_dir by done. simpl.
    unfold sum_Covered, sum_Total. rewrite !sum64_zsum, !wrap64_idemp.
    rewrite !zsum_fmap.
    split; apply zsum_wrap_ext; intros k c Hc; by apply (IH k c Hc).
  - by rewrite aggregate_file, !leaf_sum_file.
Qed.

Lemma aggregate_dir_counts node :
  all_nodes leaf_like node → TreeNode.IsDir node = true →
  TreeNode.Covered (aggregate node) = wrap64 (leaf_sum TreeNode.Covered node) ∧
  TreeNode.Total (aggregate node) = wrap64 (leaf_sum TreeNode.Total node).
Proof.
  intros Hall Hd. destruct (aggregate_leaf_sum node Hall) as [<- <-].
  rewrite aggregate_dir by done. simpl. unfold sum_Covered, sum_Total.
  by rewrite !sum64_zsum, !wrap64_idemp.
Qed.

(** *** One insertion *)

Lemma leaf_sum_new f name isDir :
  f (TreeNode.new name isDir) = 0 → leaf_sum f (TreeNode.new name isDir) = 0.
Proof. intros H. by destruct isDir. Qed.

Lemma all_nodes_new name isDir : all_nodes leaf_like (TreeNode.new name isDir).
Proof. constructor; [done|apply map_Forall_empty]. Qed.

Lemma insertable_new part rest :
  insertable rest
    (TreeNode.new part (match rest with [] => false | _ => true end)).
Proof. destruct rest; simpl; [done|]. by rewrite lookup_empty. Qed.

Lemma descend_IsDir parts fc node :
  TreeNode.IsDir (descend parts fc node) = TreeNode.IsDir node.
Proof. by destruct parts. Qed.

Lemma descend_cons part rest fc node :
  descend (part :: rest) fc node
  = TreeNode.set_Children
      (<[part := descend rest fc
                   (default
                      (TreeNode.new part
                         (match rest with [] => false | _ => true end))
                      (TreeNode.Children node !! part))]>
         (TreeNode.Children node)) node.
Proof. simpl. by destruct (TreeNode.Children node !! part). Qed.

Lemma leaf_sum_set_Children f cs node :
  TreeNode.IsDir node = true →
  leaf_sum f (TreeNode.set_Children cs node) = zsum (leaf_sum f) cs.
Proof. intros H. by rewrite leaf_sum_dir. Qed.

Lemma descend_insertable parts fc node :
  all_nodes leaf_like node → insertable parts node →
  all_nodes leaf_like (descend parts fc node) ∧
  leaf_sum TreeNode.Covered (descend parts fc node)
  = leaf_sum TreeNode.Covered node + file_covered fc ∧
  leaf_sum TreeNode.Total (descend parts fc node)
  = leaf_sum TreeNode.Total node + file_total fc.
Proof.
  revert node. induction parts as [|part rest IH]; intros node Hall Hins.
  - destruct Hins as (Hd & Hcs & Hc & Ht). simpl.
    split; [|split].
    + constructor; simpl; [by intros _|]. rewrite Hcs. apply map_Forall_empty.
    + rewrite (leaf_sum_file _ node) by done. rewrite Hd, Hc.
      unfold file_covered. lia.
    + rewrite (leaf_sum_file _ node) by done. rewrite Hd, Ht.
      unfold file_total. lia.
  - destruct Hins as [Hd Hins]. rewrite descend_cons.
    apply all_nodes_inv in Hall as [_ Hall].
    set (new := TreeNode.new part _).
    assert (all_nodes leaf_like new ∧ insertable rest new ∧
            leaf_sum TreeNode.Covered new = 0 ∧
            leaf_sum TreeNode.Total new = 0) as (Hn1 & Hn2 & Hn3 & Hn4).
    { split; [apply all_nodes_new|]. split; [apply insertable_new|].
      split; by apply leaf_sum_new. }
    rewrite !leaf_sum_set_Children, !(leaf_sum_dir _ node) by done.
    destruct (TreeNode.Children node !! part) as [c|] eqn:Ec; simpl.
    + destruct Hins as [_ Hins].
      destruct (IH c (Hall _ _ Ec) Hins) as (H1 & H2 & H3).
      split; [|split].
      * constructor; [unfold leaf_like; simpl; congruence|]. simpl.
        apply map_Forall_insert_2; [done|]. intros k c'. apply Hall.
      * rewrite (zsum_replace _ _ _ c) by done. lia.
      * rewrite (zsum_replace _ _ _ c) by done. lia.
    + destruct (IH new Hn1 Hn2) as (H1 & H2 & H3).
      split; [|split].
      * constructor; [unfold leaf_like; simpl; congruence|]. simpl.
        apply map_Forall_insert_2; [done|]. intros k c'. apply Hall.
      * rewrite zsum_insert by done. lia.
      * rewrite zsum_insert by done. lia.
Qed.

(** The nodes of the tree after an insertion: those that were there, with
    the kind they had, and new ones along the inserted path, directories all
    but the last. *)
Lemma lookup_descend parts fc node p node' :
  lookup_path p (descend parts fc node) = Some node' →
  (∃ node0, lookup_path p node = Some node0 ∧
            TreeNode.IsDir node' = TreeNode.IsDir node0) ∨
  (p `prefix_of` parts ∧ (TreeNode.IsDir node' = false → p = parts)).
Proof.
  revert node p. induction parts as [|part rest IH]; intros node p.
  - destruct p as [|s p]; simpl.
    + intros [= <-]. left. by exists node.
    + intros H. left.
      destruct (TreeNode.Children node !! s) as [c|]; [|done]. simpl in *.
      by exists node'.
  - destruct p as [|s p]; simpl.
    + intros [= <-]. left. by exists node.
    + destruct (decide (s = part)) as [->|Hne].
      2: { rewrite lookup_insert_ne by done. intros H. left.
           destruct (TreeNode.Children node !! s) as [c|]; [|done].
           simpl in *. by exists node'. }
      rewrite lookup_insert_eq. simpl. intros H.
      apply IH in H as [(node0 & Hl & Hd)|[Hp Hd]].
      * destruct (TreeNode.Children node !! part) as [c|] eqn:Ec; simpl.
        { left. by exists node0. }
        right. destruct p as [|s' p]; simpl in Hl.
        -- injection Hl as <-. split.
           ++ apply prefix_cons, prefix_nil.
           ++ rewrite Hd. simpl. by destruct rest.
        -- by rewrite lookup_empty in Hl.
      * right. split; [by apply prefix_cons|].
        intros ?. f_equal. by apply Hd.
Qed.

Lemma insertable_of_lookup parts node :
  parts ≠ [] → lookup_path parts node = None →
  (∀ p node', p `prefix_of` parts → p ≠ parts →
              lookup_path p node = Some node' → TreeNode.IsDir node' = true) →
  insertable parts node.
Proof.
  revert node. induction parts as [|part rest IH]; intros node Hne Hl Hpre;
    [done|].
  simpl. split.
  { apply (Hpre [] node); [apply prefix_nil|done|done]. }
  simpl in Hl. destruct (TreeNode.Children node !! part) as [c|] eqn:Ec;
    [|done]. simpl in Hl.
  assert (rest ≠ []) as Hrest by (by intros ->).
  split; [done|]. apply IH; [done|done|].
  intros p node' Hp Hpne Hlp. apply (Hpre (part :: p) node').
  - by apply prefix_cons.
  - congruence.
  - simpl. by rewrite Ec.
Qed.

Lemma Split_nonempty s sep : Split s sep ≠ [].
Proof.
  destruct s as [|c s]; simpl; [done|].
  destruct (Ascii.eqb c sep); [done|]. by destruct (Split s sep).
Qed.

Lemma Split_inj s s' sep : Split s sep = Split s' sep → s = s'.
Proof.
  revert s'. induction s as [|c s IH]; intros [|c' s']; simpl.
  - done.
  - destruct (Ascii.eqb c' sep).
    + intros [= H]. symmetry in H. by apply Split_nonempty in H.
    + by destruct (Split s' sep).
  - destruct (Ascii.eqb c sep).
    + intros [= H]. by apply Split_nonempty in H.
    + by destruct (Split s sep).
  - destruct (Ascii.eqb c sep) eqn:Ec, (Ascii.eqb c' sep) eqn:Ec'.
    + apply Ascii.eqb_eq in Ec, Ec'. intros [= H]. f_equal; [congruence|].
      by apply IH.
    + by destruct (Split s' sep).
    + by destruct (Split s sep).
    + destruct (Split s sep) as [|h t] eqn:Es;
        [by apply Split_nonempty in Es|].
      destruct (Split s' sep) as [|h' t'] eqn:Es';
        [by apply Split_nonempty in Es'|].
      intros [= -> -> ->]. f_equal. apply IH. by rewrite Es'.
Qed.

(** The node at the end of the inserted path holds the file's data. *)
Lemma lookup_descend_self parts fc node :
  insertable parts node →
  ∃ node', lookup_path parts (descend parts fc node) = Some node' ∧
           summary node'
           = (file_covered fc, file_total fc, file_uncovered fc, false).
Proof.
  revert node. induction parts as [|part rest IH]; intros node Hins.
  - destruct Hins as (Hd & _). eexists. split; [done|].
    unfold summary. simpl. by rewrite Hd.
  - destruct Hins as [Hd Hins]. rewrite descend_cons. simpl.
    rewrite lookup_insert_eq. simpl. apply IH.
    destruct (TreeNode.Children node !! part) as [c|]; simpl.
    + by destruct Hins.
    + apply insertable_new.
Qed.

(** An insertion leaves the node at the end of a path that does not lead
    to the inserted one as it was. *)
Lemma lookup_descend_other parts fc node q :
  ¬ q `prefix_of` parts →
  lookup_path q (descend parts fc node) = lookup_path q node.
Proof.
  revert node q. induction parts as [|part rest IH]; intros node q Hq.
  - destruct q as [|s q]; [|done]. by destruct Hq.
  - destruct q as [|s q]; [destruct Hq; apply prefix_nil|].
    rewrite descend_cons. simpl.
    destruct (decide (s = part)) as [->|Hne];
      [|by rewrite lookup_insert_ne].
    rewrite lookup_insert_eq. simpl. rewrite IH.
    + destruct (TreeNode.Children node !! part) as [c|]; simpl; [done|].
      destruct q as [|s' q]; [|done]. destruct Hq.
      apply prefix_cons, prefix_nil.
    + intros Hp. apply Hq. by apply prefix_cons.
Qed.

(** [aggregate] keeps the shape of a tree whose files are leaves. *)
Lemma lookup_aggregate p node :
  all_nodes leaf_like node →
  lookup_path p (aggregate node) = aggregate <$> lookup_path p node.
Proof.
  revert node. induction p as [|s p IH]; intros node Hall; [done|].
  apply all_nodes_inv in Hall as [Hleaf Hall].
  destruct (TreeNode.IsDir node) eqn:Ed.
  - rewrite aggregate_dir by done. simpl. rewrite lookup_fmap.
    destruct (TreeNode.Children node !! s) as [c|] eqn:Ec; simpl; [|done].
    apply IH. by apply (Hall s).
  - rewrite aggregate_file by done. simpl. rewrite Hleaf by done.
    by rewrite lookup_empty.
Qed.

(** A path that is kept apart from the inserted ones can be inserted. *)
Lemma insertable_fresh paths root q :
  tree_inv paths root → q ≠ [] →
  (∀ q', q' ∈ paths → ¬ q `prefix_of` q' ∧ ¬ q' `prefix_of` q) →
  insertable q root.
Proof.
  intros (Hall & Hroot & Hpaths) Hne Hq.
  apply insertable_of_lookup; [done| |].
  - destruct (lookup_path q root) as [node|] eqn:El; [|done].
    destruct (Hpaths q node) as [(q' & Hq' & Hpre) _]; [done|done|].
    by destruct (Hq q' Hq').
  - intros p node Hpre Hpq Hl. destruct p as [|s p].
    { simpl in Hl. by injection Hl as <-. }
    destruct (TreeNode.IsDir node) eqn:Ed; [done|].
    destruct (Hpaths (s :: p) node) as [_ Hin]; [done|done|].
    by destruct (Hq _ (Hin Ed)).
Qed.

(** *** All insertions *)

Lemma buildTree_ordered_snoc order entry :
  buildTree_ordered (order ++ [entry])
  = descend (segments entry.1) entry.2 (buildTree_ordered order).
Proof. unfold buildTree_ordered. by rewrite foldl_app. Qed.

Lemma build_inv (order : list (string * FileCoverage.t)) :
  (∀ i j e1 e2, order !! i = Some e1 → order !! j = Some e2 → i ≠ j →
                ¬ segments e1.1 `prefix_of` segments e2.1) →
  tree_inv ((λ e, segments e.1) <$> order) (buildTree_ordered order) ∧
  leaf_sum TreeNode.Covered (buildTree_ordered order)
  = lsum file_covered order ∧
  leaf_sum TreeNode.Total (buildTree_ordered order) = lsum file_total order.
Proof.
  induction order as [|entry order IH] using rev_ind; intros Hfree.
  { split; [|done]. split; [apply all_nodes_new|]. split; [done|].
    intros [|s p] node Hp; [done|]. simpl. by rewrite lookup_empty. }
  destruct IH as ((Hall & Hroot & Hpaths) & Hc & Ht).
  { intros i j e1 e2 H1 H2. apply Hfree; by apply lookup_app_l_Some. }
  set (t := buildTree_ordered order) in *.
  set (q := segments entry.1).
  assert (∀ q', q' ∈ (λ e, segments e.1) <$> order →
                ¬ q `prefix_of` q' ∧ ¬ q' `prefix_of` q) as Hq.
  { intros q' (e & -> & [j Hj]%list_elem_of_lookup)%list_elem_of_fmap.
    assert (j < length order)%nat by (by eapply lookup_lt_Some).
    assert ((order ++ [entry]) !! length order = Some entry) as Hlast.
    { by rewrite lookup_app_r, Nat.sub_diag by lia. }
    split.
    - apply (Hfree (length order) j); [done| |lia].
      by apply lookup_app_l_Some.
    - apply (Hfree j (length order)); [|done|lia].
      by apply lookup_app_l_Some. }
  assert (insertable q t) as Hins.
  { apply (insertable_fresh _ t q (conj Hall (conj Hroot Hpaths)));
      [apply Split_nonempty|done]. }
  rewrite buildTree_ordered_snoc. fold q t.
  destruct (descend_insertable q entry.2 t Hall Hins) as (H1 & H2 & H3).
  rewrite H2, H3, Hc, Ht, !lsum_snoc. split; [|done].
  split; [done|]. split; [by rewrite descend_IsDir|].
  intros p node Hp Hl. rewrite fmap_app. simpl. fold q.
  apply lookup_descend in Hl as [(node0 & Hl & Hd)|[Hpre Hd]].
  - destruct (Hpaths p node0 Hp Hl) as [(q' & Hq' & Hpre) Hin]. split.
    + exists q'. split; [|done]. apply elem_of_app. by left.
    + rewrite Hd. intros ?. apply elem_of_app. left. by apply Hin.
  - split.
    + exists q. split; [|done]. apply elem_of_app. right. by left.
    + intros ?. apply elem_of_app. right. rewrite Hd by done. by left.
Qed.

(** Every file of the profile has its node, a file node with its data. *)
Lemma build_leaves (order : list (string * FileCoverage.t)) entry :
  (∀ i j e1 e2, order !! i = Some e1 → order !! j = Some e2 → i ≠ j →
                ¬ segments e1.1 `prefix_of` segments e2.1) →
  entry ∈ order →
  ∃ node, lookup_path (segments entry.1) (buildTree_ordered order) = Some node ∧
          summary node = (file_covered entry.2, file_total entry.2,
                          file_uncovered entry.2, false).
Proof.
  induction order as [|last order IH] using rev_ind; intros Hfree Hin.
  { by apply elem_of_nil in Hin. }
  assert (∀ i j e1 e2, order !! i = Some e1 → order !! j = Some e2 → i ≠ j →
            ¬ segments e1.1 `prefix_of` segments e2.1) as Hfree'.
  { intros i j e1 e2 H1 H2. apply Hfree; by apply lookup_app_l_Some. }
  assert ((order ++ [last]) !! length order = Some last) as Hlast.
  { by rewrite lookup_app_r, Nat.sub_diag by lia. }
  rewrite buildTree_ordered_snoc.
  apply elem_of_app in Hin as [Hin|Hin%list_elem_of_singleton].
  - rewrite lookup_descend_other; [by apply IH|].
    apply list_elem_of_lookup in Hin as [i Hi].
    assert (i < length order)%nat by (by eapply lookup_lt_Some).
    apply (Hfree i (length order)); [by apply lookup_app_l_Some|done|lia].
  - subst entry. apply lookup_descend_self.
    destruct (build_inv order Hfree') as [Hinv _].
    apply (insertable_fresh _ _ _ Hinv); [apply Split_nonempty|].
    intros q' (e & -> & [j Hj]%list_elem_of_lookup)%list_elem_of_fmap.
    assert (j < length order)%nat by (by eapply lookup_lt_Some).
    split.
    + apply (Hfree (length order) j); [done| |lia].
      by apply lookup_app_l_Some.
    + apply (Hfree j (length order)); [|done|lia].
      by apply lookup_app_l_Some.
Qed.

Lemma conflict_free_order fileData (order : list (string * FileCoverage.t)) :
  conflict_free fileData → order ≡ₚ map_to_list fileData →
  ∀ i j e1 e2, order !! i = Some e1 → order !! j = Some e2 → i ≠ j →
               ¬ segments e1.1 `prefix_of` segments e2.1.
Proof.
  intros Hfree Hp i j [f1 fc1] [f2 fc2] H1 H2 Hij. simpl.
  assert (NoDup order.*1) as Hnd.
  { rewrite Hp. apply NoDup_fst_map_to_list. }
  assert (∀ k f fc, order !! k = Some (f, fc) → f ∈ dom fileData) as Hdom.
  { intros k f fc Hk. apply elem_of_dom. exists fc.
    apply elem_of_map_to_list. rewrite <-Hp. by eapply list_elem_of_lookup_2. }
  apply Hfree; [by eapply Hdom|by eapply Hdom|].
  intros ->. apply Hij. eapply (NoDup_lookup _ _ _ f2 Hnd).
  - by rewrite list_lookup_fmap, H1.
  - by rewrite list_lookup_fmap, H2.
Qed.

End Tree.

(** C3, as the program has it: when no file path of the profile leads
    through another one, then, whatever the order in which [buildTree]
    visits the files, after [aggregate] every directory node of the tree
    holds the sums of the counts of its children, themselves aggregated; the
    counts of the root are the sums of the per-file counts, taken as [int]s,
    and are those sums themselves when an [int] holds them; every file of
    the profile has its file node, at the end of its path, with the counts
    and the sorted uncovered lines of that file; and [aggregate] returns a
    node that is not a directory as it is. *)
Theorem aggregate_sums fileData (order : list (string * FileCoverage.t)) :
  conflict_free fileData → order ≡ₚ map_to_list fileData →
  all_nodes summed (aggregate (buildTree_ordered order)) ∧
  TreeNode.Total (aggregate (buildTree_ordered order))
  = wrap64 (total_lines fileData) ∧
  TreeNode.Covered (aggregate (buildTree_ordered order))
  = wrap64 (covered_lines fileData) ∧
  (total_lines fileData ≤ max_int →
   TreeNode.Total (aggregate (buildTree_ordered order))
   = total_lines fileData) ∧
  (∀ filePath fc, fileData !! filePath = Some fc →
     summary <$> lookup_path (segments filePath)
                   (aggregate (buildTree_ordered order))
     = Some (file_covered fc, file_total fc, file_uncovered fc, false)) ∧
  ∀ node, TreeNode.IsDir node = false → aggregate node = node.
Proof.
  intros Hfree Hp.
  destruct (build_inv order (conflict_free_order _ _ Hfree Hp))
    as ((Hall & Hroot & _) & Hc & Ht).
  destruct (aggregate_dir_counts _ Hall Hroot) as [Hc' Ht'].
  assert (TreeNode.Total (aggregate (buildTree_ordered order))
          = wrap64 (total_lines fileData)) as HT.
  { rewrite Ht', Ht. unfold total_lines.
    by rewrite zsum_lsum, (lsum_perm _ _ _ Hp). }
  split; [by apply aggregate_summed|]. split; [done|]. split.
  { rewrite Hc', Hc. unfold covered_lines.
    by rewrite zsum_lsum, (lsum_perm _ _ _ Hp). }
  split; [|split; [|apply aggregate_file]].
  - intros Hmax. rewrite HT. apply wrap64_small. split; [|done].
    unfold total_lines. rewrite zsum_lsum.
    pose proof (lsum_nonneg (λ fc, Z.of_nat (size (FileCoverage.Total fc)))
                  (map_to_list fileData)) as H0.
    assert (- 2 ^ 63 ≤ 0) as Hlo by done. etrans; [exact Hlo|].
    apply H0. intros. lia.
  - intros filePath fc Hfc. rewrite lookup_aggregate by done.
    destruct (build_leaves order (filePath, fc)
                (conflict_free_order _ _ Hfree Hp)) as (node & Hl & Hs).
    { rewrite Hp. by apply elem_of_map_to_list. }
    simpl in Hl, Hs. rewrite Hl. simpl.
    rewrite aggregate_file; [by rewrite Hs|].
    unfold summary in Hs. by injection Hs.
Qed.

(** Two files in two directories. *)
Lemma aggregate_sums_witness :
  conflict_free two_files_data ∧
  TreeNode.Total (aggregate (buildTree two_files_data))
  = wrap64 (total_lines two_files_data).
Proof.
  assert (conflict_free two_files_data) as H.
  { assert (dom two_files_data = {["a/x.go"; "b.go"]}) as Hdom
      by (vm_compute; reflexivity).
    intros f g Hf Hg Hne. rewrite Hdom in Hf, Hg. clear Hdom.
    apply elem_of_union in Hf as [Hf|Hf]; apply elem_of_singleton in Hf;
      apply elem_of_union in Hg as [Hg|Hg]; apply elem_of_singleton in Hg;
      subst f g; try (by destruct Hne); clear Hne;
      refine (proj1 (bool_decide_eq_false _) _); vm_compute; reflexivity. }
  split; [exact H|].
  exact (proj1 (proj2 (aggregate_sums two_files_data _ H (reflexivity _)))).
Defined.

(** C3, as the claim has it, fails: the profile has the two files [a] and
    [a/b] with one line each, so two lines in all, and whatever the order in
    which [buildTree] visits them the root of the aggregated tree has a
    total of one line. *)
Lemma nested_paths_are_not_summed :
  nested_data = {[ "a" := nested_a; "a/b" := nested_ab ]} ∧
  total_lines nested_data = 2 ∧
  TreeNode.Total
    (aggregate (buildTree_ordered [("a", nested_a); ("a/b", nested_ab)])) = 1 ∧
  TreeNode.Total
    (aggregate (buildTree_ordered [("a/b", nested_ab); ("a", nested_a)])) = 1.
Proof. split_and!; vm_compute; reflexivity. Qed.

(** ** Consistency of the counts *)

Lemma percentage_le_100 covered total :
  0 ≤ covered ≤ total → 0 < total → (percentage covered total <= 100)%Q.
Proof.
  intros Hc Ht. unfold percentage, Qle, Qdiv, Qmult, Qinv, inject_Z. simpl.
  destruct total as [|p|p]; try lia. simpl. lia.
Qed.

Lemma node_ok_new name isDir : all_nodes node_ok (TreeNode.new name isDir).
Proof.
  constructor; [|apply map_Forall_empty]. split; simpl; [lia|done].
Qed.

Lemma descend_node_ok parts fc node :
  FileCoverage.Covered fc ⊆ FileCoverage.Total fc →
  all_nodes node_ok node → all_nodes node_ok (descend parts fc node).
Proof.
  intros Hsub. revert node.
  induction parts as [|part rest IH]; intros node Hall.
  - apply all_nodes_inv in Hall as [[Hcount Hcov] Hall]. simpl.
    apply subseteq_size in Hsub.
    constructor; [|done]. split; simpl; [lia|].
    destruct (0 <? Z.of_nat (size (FileCoverage.Total fc))) eqn:Epos; [|done].
    apply percentage_le_100; lia.
  - rewrite descend_cons. apply all_nodes_inv in Hall as [Hok Hall].
    constructor; [done|]. simpl. apply map_Forall_insert_2; [|done].
    apply IH. destruct (TreeNode.Children node !! part) as [c|] eqn:Ec; simpl.
    + by apply (Hall part).
    + apply node_ok_new.
Qed.

(** C9: in the map that [parseCoverProfile] returns, [Covered] and
    [Uncovered] are parts of [Total] and together make it up; and in the
    tree that [buildTree] makes of that map, whatever the order in which it
    visits the files, every node, so every file node, has a covered count
    between 0 and its total count and a percentage of at most 100. *)
Theorem counts_are_consistent (Open : FileSystem) path fileData :
  (parseCoverProfile Open path).1 = Some fileData →
  (∀ filePath fc, fileData !! filePath = Some fc →
     FileCoverage.Covered fc ⊆ FileCoverage.Total fc ∧
     FileCoverage.Uncovered fc ⊆ FileCoverage.Total fc ∧
     FileCoverage.Covered fc ∪ FileCoverage.Uncovered fc
     = FileCoverage.Total fc) ∧
  ∀ order, order ≡ₚ map_to_list fileData →
    all_nodes node_ok (buildTree_ordered order).
Proof.
  unfold parseCoverProfile. destruct (Open path) as [e|file]; [done|]. simpl.
  intros [= <-].
  assert (∀ filePath fc, scan ∅ (lines file) !! filePath = Some fc →
            FileCoverage.Covered fc ∪ FileCoverage.Uncovered fc
            = FileCoverage.Total fc) as Hunion by apply scan_union.
  split.
  - intros filePath fc Hfc. specialize (Hunion _ _ Hfc). set_solver.
  - intros order Hp.
    assert (Forall (λ e, FileCoverage.Covered e.2 ⊆ FileCoverage.Total e.2)
              order) as Hall.
    { apply Forall_forall. intros [f fc] Hin. simpl.
      rewrite Hp in Hin. apply elem_of_map_to_list in Hin.
      specialize (Hunion _ _ Hin). set_solver. }
    clear Hp. induction order as [|e order IH] using rev_ind.
    + apply node_ok_new.
    + apply Forall_app in Hall as [Hall He].
      apply (proj1 (Forall_singleton _ _)) in He.
      rewrite buildTree_ordered_snoc. apply descend_node_ok; [done|].
      by apply IH.
Qed.

(** The tree of a profile whose records disagree about line 7. *)
Lemma counts_are_consistent_witness :
  (parseCoverProfile sample_fs "cover.out").1
  = Some (scan ∅ overlapping_profile) ∧
  all_nodes node_ok (buildTree (scan ∅ overlapping_profile)).
Proof.
  split; [reflexivity|].
  exact (proj2 (counts_are_consistent sample_fs "cover.out" _ eq_refl) _
           (reflexivity _)).
Defined.

(** ** The profile of three records *)

(** C4: the file with the three records of [a/b/file.go] is parsed without
    an error, and in the aggregated tree of the map obtained, whatever the
    order of the loop of [buildTree], the file node [a/b/file.go] has 2
    covered lines of 3 and the uncovered line 2, and the directory nodes
    [a/b] and [a] and the root have 2 covered lines of 3. *)
Theorem three_records_tree (order : list (string * FileCoverage.t)) :
  order ≡ₚ map_to_list abc_data →
  parseCoverProfile abc_fs "cover.out" = (Some abc_data, None) ∧
  summary <$> lookup_path ["a"; "b"; "file.go"]
                (aggregate (buildTree_ordered order))
  = Some (2, 3, [2], false) ∧
  summary <$> lookup_path ["a"; "b"] (aggregate (buildTree_ordered order))
  = Some (2, 3, [], true) ∧
  summary <$> lookup_path ["a"] (aggregate (buildTree_ordered order))
  = Some (2, 3, [], true) ∧
  summary (aggregate (buildTree_ordered order)) = (2, 3, [], true).
Proof.
  intros Hp.
  assert (∃ entry, map_to_list abc_data = [entry]) as [entry He].
  { eexists. vm_compute. reflexivity. }
  rewrite He in Hp. apply Permutation_singleton_r in Hp. subst order.
  rewrite <-He. split_and!; vm_compute; reflexivity.
Qed.

(** The root of the tree, for the order that [map_to_list] gives. *)
Lemma three_records_tree_witness :
  summary (aggregate (buildTree abc_data)) = (2, 3, [], true).
Proof.
  exact (proj2 (proj2 (proj2 (proj2
    (three_records_tree (map_to_list abc_data) (reflexivity _)))))).
Defined.

(** * Further properties

    ** Event aggregator *)

Section MoreAggregator.
Implicit Types (st : State) (event : TestEvent.t) (pkg parent : string).
Implicit Types (events : list TestEvent.t).

Lemma count_events_snoc P events event :
  count_events P (events ++ [event])
  = count_events P events + (if P event then 1 else 0).
Proof.
  unfold count_events. rewrite filter_app, length_app, Nat2Z.inj_add.
  f_equal. rewrite filter_cons, filter_nil. by destruct (P event).
Qed.

Lemma test_counters_aux events :
  testsPassed (ingest_all initial events)
  = wrap64 (count_events (λ e, test_scoped e && has_action "pass" e) events) ∧
  testsFailed (ingest_all initial events)
  = wrap64 (count_events (λ e, test_scoped e && has_action "fail" e) events) ∧
  testsDone (ingest_all initial events)
  = wrap64 (count_events (λ e, test_scoped e && has_action "pass" e) events
            + count_events (λ e, test_scoped e && has_action "fail" e) events).
Proof.
  induction events as [|e events (IHp & IHf & IHd)] using rev_ind; [done|].
  rewrite ingest_all_snoc, !count_events_snoc.
  pose proof (ingest_counters (ingest_all initial events) e) as Hc.
  unfold test_scoped, has_action in *.
  destruct (String.eqb (TestEvent.Test e) EmptyString); simpl.
  { injection Hc as -> -> ->. by rewrite !Z.add_0_r. }
  destruct (String.eqb (TestEvent.Action e) "pass") eqn:Ep; simpl.
  { apply String.eqb_eq in Ep. rewrite Ep. simpl.
    injection Hc as -> -> ->. rewrite IHd, IHp, IHf, Z.add_0_r.
    unfold incr64, add64. rewrite !wrap64_add_l.
    split; [done|]. split; [done|]. f_equal. lia. }
  destruct (String.eqb (TestEvent.Action e) "fail") eqn:Ef; simpl.
  { injection Hc as -> -> ->. rewrite IHd, IHp, IHf, Z.add_0_r.
    unfold incr64, add64. rewrite !wrap64_add_l.
    split; [done|]. split; [done|]. f_equal. lia. }
  injection Hc as -> -> ->. by rewrite !Z.add_0_r.
Qed.

(** X1: the two test counters hold the numbers of test-scoped pass events
    and of test-scoped fail events of the stream, as [int]s, and the counter
    of processed tests is their sum, the total that the summary prints. *)
Theorem test_counters_count_events events :
  testsPassed (ingest_all initial events)
  = wrap64 (count_events (λ e, test_scoped e && has_action "pass" e) events) ∧
  testsFailed (ingest_all initial events)
  = wrap64 (count_events (λ e, test_scoped e && has_action "fail" e) events) ∧
  testsDone (ingest_all initial events)
  = add64 (testsPassed (ingest_all initial events))
      (testsFailed (ingest_all initial events)).
Proof.
  destruct (test_counters_aux events) as (Hp & Hf & Hd).
  split; [done|]. split; [done|].
  rewrite Hd, Hp, Hf. unfold add64. by rewrite wrap64_add_l, wrap64_add_r.
Qed.

(** *** The entry of one package *)

Lemma lookup_ingest st event pkg :
  packages (ingest st event) !! pkg
  = if decide (TestEvent.Package event = pkg)
    then Some (package_step event
                 (default (PackageResult.new pkg) (packages st !! pkg)))
    else packages st !! pkg.
Proof.
  rewrite ingest_packages. case_decide as Hp.
  - subst pkg. by rewrite lookup_insert_eq.
  - by rewrite lookup_insert_ne.
Qed.

Lemma parent_entry_ingest st event pkg parent :
  parent_entry (ingest st event) pkg parent
  = if decide (targets pkg parent event)
    then Some (parent_step event
                 (default (ParentTest.new parent) (parent_entry st pkg parent)))
    else parent_entry st pkg parent.
Proof.
  unfold parent_entry. rewrite lookup_ingest.
  destruct (decide (TestEvent.Package event = pkg)) as [<-|Hp].
  2: { rewrite decide_False; [done|]. by intros (? & _). }
  simpl. set (o := packages st !! TestEvent.Package event).
  assert (o ≫= (λ r, PackageResult.ParentMap r !! parent)
          = PackageResult.ParentMap
              (default (PackageResult.new (TestEvent.Package event)) o)
            !! parent) as ->.
  { by destruct o. }
  set (r0 := default _ o). unfold package_step.
  destruct (String.eqb (TestEvent.Test event) EmptyString) eqn:ET.
  - apply String.eqb_eq in ET.
    rewrite decide_False by (by intros (_ & ? & _)).
    by destruct (String.eqb (TestEvent.Action event) "pass"),
      (String.eqb (TestEvent.Action event) "fail").
  - apply String.eqb_neq in ET. simpl.
    destruct (decide (parent_key event = parent)) as [<-|Hk].
    + rewrite decide_True by done. by rewrite lookup_insert_eq.
    + rewrite decide_False by (by intros (_ & _ & ?)).
      by rewrite lookup_insert_ne.
Qed.

Lemma parent_step_Subtests event pt :
  ParentTest.Name (parent_step event pt) = ParentTest.Name pt ∧
  ParentTest.Subtests (parent_step event pt)
  = ParentTest.Subtests pt ++ option_list (subtest_of event).
Proof.
  unfold parent_step, subtest_of, has_action.
  destruct (String.eqb (TestEvent.Action event) "pass"),
    (String.eqb (TestEvent.Action event) "fail"), (subtest_name event);
    simpl; by rewrite ?app_nil_r.
Qed.

Lemma subtests_of_snoc pkg parent events event :
  subtests_of pkg parent (events ++ [event])
  = subtests_of pkg parent events
    ++ (if decide (targets pkg parent event)
        then option_list (subtest_of event) else []).
Proof.
  unfold subtests_of. rewrite omap_app. f_equal. simpl.
  case_decide; [|done]. by destruct (subtest_of event).
Qed.

Lemma parent_entry_subtests events pkg parent :
  match parent_entry (ingest_all initial events) pkg parent with
  | Some pt =>
      ParentTest.Name pt = parent ∧
      ParentTest.Subtests pt = subtests_of pkg parent events
  | None => subtests_of pkg parent events = []
  end.
Proof.
  induction events as [|e events IH] using rev_ind; [done|].
  rewrite ingest_all_snoc, parent_entry_ingest, subtests_of_snoc.
  case_decide as Ht.
  - destruct (parent_step_Subtests e
                (default (ParentTest.new parent)
                   (parent_entry (ingest_all initial events) pkg parent)))
      as [-> ->].
    destruct (parent_entry (ingest_all initial events) pkg parent) as [pt|];
      simpl.
    + destruct IH as [-> ->]. done.
    + by rewrite IH.
  - rewrite app_nil_r. done.
Qed.

(** X2: the subtests of a parent test are kept in the order of arrival: the
    list of its entry is the list of the pass and fail events of its
    subtests in the stream, each with its prettified name, its verdict and
    its elapsed time; and the name of the entry is its key. *)
Theorem subtests_in_arrival_order events pkg parent pt :
  parent_entry (ingest_all initial events) pkg parent = Some pt →
  ParentTest.Name pt = parent ∧
  ParentTest.Subtests pt = subtests_of pkg parent events.
Proof.
  intros H. pose proof (parent_entry_subtests events pkg parent) as Hs.
  by rewrite H in Hs.
Qed.

(** The two subtests of [Foo] in [foo_stream], in their order. *)
Lemma subtests_in_arrival_order_witness :
  parent_entry (ingest_all initial foo_stream) "p" "Foo"
  = Some (ParentTest.mk "Foo"
            [SubTest.mk "first case" true 0; SubTest.mk "second > case" false 0]
            false) ∧
  subtests_of "p" "Foo" foo_stream
  = [SubTest.mk "first case" true 0; SubTest.mk "second > case" false 0].
Proof.
  assert (parent_entry (ingest_all initial foo_stream) "p" "Foo"
          = Some (ParentTest.mk "Foo"
                    [SubTest.mk "first case" true 0;
                     SubTest.mk "second > case" false 0] false)) as H
    by (vm_compute; reflexivity).
  split; [exact H|].
  exact (eq_sym (proj2 (subtests_in_arrival_order foo_stream "p" "Foo" _ H))).
Defined.

(** *** The verdict of a package *)

Lemma package_step_verdict event r :
  (PackageResult.Passed (package_step event r),
   PackageResult.Duration (package_step event r))
  = if is_verdict (TestEvent.Package event) event
    then (has_action "pass" event, TestEvent.Elapsed event)
    else (PackageResult.Passed r, PackageResult.Duration r).
Proof.
  unfold package_step, is_verdict, test_scoped, has_action.
  rewrite bool_decide_eq_true_2 by done.
  destruct (String.eqb (TestEvent.Test event) EmptyString); [|done].
  by destruct (String.eqb (TestEvent.Action event) "pass"),
    (String.eqb (TestEvent.Action event) "fail").
Qed.

Lemma verdicts_snoc pkg events event :
  verdicts pkg (events ++ [event])
  = verdicts pkg events ++ (if is_verdict pkg event then [event] else []).
Proof.
  unfold verdicts. rewrite filter_app. f_equal.
  rewrite filter_cons, filter_nil. by destruct (is_verdict pkg event).
Qed.

Lemma package_verdict_aux events pkg :
  let r := default (PackageResult.new pkg)
             (packages (ingest_all initial events) !! pkg) in
  (PackageResult.Passed r, PackageResult.Duration r)
  = match last (verdicts pkg events) with
    | Some e => (has_action "pass" e, TestEvent.Elapsed e)
    | None => (false, 0%Q)
    end.
Proof.
  induction events as [|e events IH] using rev_ind; [done|]. simpl in *.
  rewrite ingest_all_snoc, lookup_ingest, verdicts_snoc.
  case_decide as Hp.
  - simpl. rewrite package_step_verdict, Hp.
    destruct (is_verdict pkg e).
    + by rewrite last_snoc.
    + by rewrite app_nil_r.
  - assert (is_verdict pkg e = false) as ->.
    { unfold is_verdict. by rewrite bool_decide_eq_false_2. }
    by rewrite app_nil_r.
Qed.

(** X3: the verdict and the duration of a package are those of the last
    package-level pass or fail event of that package in the stream; a
    package without such an event is not passed and has duration 0. *)
Theorem package_verdict_last_wins events pkg r :
  packages (ingest_all initial events) !! pkg = Some r →
  (PackageResult.Passed r, PackageResult.Duration r)
  = match last (verdicts pkg events) with
    | Some e => (has_action "pass" e, TestEvent.Elapsed e)
    | None => (false, 0%Q)
    end.
Proof.
  intros H. pose proof (package_verdict_aux events pkg) as Hv.
  simpl in Hv. by rewrite H in Hv.
Qed.

(** Package [q] of [interleaved_stream] fails, then passes. *)
Lemma package_verdict_last_wins_witness :
  PackageResult.Passed <$>
    packages (ingest_all initial interleaved_stream) !! "q" = Some true.
Proof.
  destruct (packages (ingest_all initial interleaved_stream) !! "q")
    as [r|] eqn:E; [|by vm_compute in E].
  pose proof (package_verdict_last_wins interleaved_stream "q" r E) as H.
  simpl. f_equal. exact (f_equal fst H).
Defined.

(** *** What every entry keeps *)

Lemma package_step_fields event r :
  PackageResult.Name (package_step event r) = PackageResult.Name r ∧
  PackageResult.Skipped (package_step event r) = PackageResult.Skipped r.
Proof.
  unfold package_step.
  by destruct (String.eqb (TestEvent.Test event) EmptyString),
    (String.eqb (TestEvent.Action event) "pass"),
    (String.eqb (TestEvent.Action event) "fail").
Qed.

Lemma package_step_parents event r :
  (∀ k pt, PackageResult.ParentMap r !! k = Some pt → ParentTest.Name pt = k) →
  ∀ k pt, PackageResult.ParentMap (package_step event r) !! k = Some pt →
          ParentTest.Name pt = k.
Proof.
  intros Hr k pt. unfold package_step.
  destruct (String.eqb (TestEvent.Test event) EmptyString).
  { destruct (String.eqb (TestEvent.Action event) "pass"),
      (String.eqb (TestEvent.Action event) "fail"); apply Hr. }
  simpl. destruct (decide (parent_key event = k)) as [<-|Hne].
  - rewrite lookup_insert_eq. intros [= <-].
    rewrite (proj1 (parent_step_Subtests _ _)).
    destruct (PackageResult.ParentMap r !! parent_key event) as [pt0|] eqn:E;
      simpl; [by apply Hr|done].
  - rewrite lookup_insert_ne by done. apply Hr.
Qed.

Lemma entry_names events pkg r :
  packages (ingest_all initial events) !! pkg = Some r →
  PackageResult.Name r = pkg ∧ PackageResult.Skipped r = false ∧
  ∀ k pt, PackageResult.ParentMap r !! k = Some pt → ParentTest.Name pt = k.
Proof.
  revert r. induction events as [|e events IH] using rev_ind; intros r.
  { intros H. simpl in H. by apply lookup_empty_Some in H. }
  rewrite ingest_all_snoc, lookup_ingest.
  case_decide as Hp; [|apply IH]. intros [= <-].
  destruct (package_step_fields e
              (default (PackageResult.new pkg)
                 (packages (ingest_all initial events) !! pkg))) as [-> ->].
  destruct (packages (ingest_all initial events) !! pkg) as [r0|] eqn:E;
    simpl.
  - destruct (IH r0 eq_refl) as (Hn & Hs & Hpt).
    split; [done|]. split; [done|]. by apply package_step_parents.
  - split; [done|]. split; [done|]. apply package_step_parents.
    intros k pt H. simpl in H. by apply lookup_empty_Some in H.
Qed.

Lemma entry_invariants_aux events pkg r :
  packages (ingest_all initial events) !! pkg = Some r →
  PackageResult.HasTests r = true ↔
  ∃ e, e ∈ events ∧ TestEvent.Package e = pkg ∧
       TestEvent.Test e ≠ EmptyString.
Proof.
  intros H. pose proof (has_tests_ingest_all initial events pkg) as Hh.
  unfold has_tests in Hh. rewrite H in Hh. simpl in Hh. rewrite Hh.
  split; [|by right].
  intros [Hf|?]; [|done]. by vm_compute in Hf.
Qed.

(** X4: after any stream, the entry of a package has the package identifier
    as its name and is not yet marked skipped, [HasTests] is set exactly
    when the stream has an event of that package with a test identifier,
    whatever its action, and every parent-test entry has its key as its
    name. *)
Theorem entry_invariants events pkg r :
  packages (ingest_all initial events) !! pkg = Some r →
  PackageResult.Name r = pkg ∧
  PackageResult.Skipped r = false ∧
  (PackageResult.HasTests r = true ↔
   ∃ e, e ∈ events ∧ TestEvent.Package e = pkg ∧
        TestEvent.Test e ≠ EmptyString) ∧
  ∀ k pt, PackageResult.ParentMap r !! k = Some pt → ParentTest.Name pt = k.
Proof.
  intros H. destruct (entry_names events pkg r H) as (Hn & Hs & Hpt).
  split; [done|]. split; [done|]. split; [|done].
  by apply entry_invariants_aux.
Qed.

(** The entry of [p] after [foo_stream]. *)
Lemma entry_invariants_witness :
  PackageResult.Name <$> packages (ingest_all initial foo_stream) !! "p"
  = Some "p".
Proof.
  destruct (packages (ingest_all initial foo_stream) !! "p") as [r|] eqn:E;
    [|by vm_compute in E].
  simpl. f_equal. exact (proj1 (entry_invariants foo_stream "p" r E)).
Defined.

(** *** Packages do not interfere *)

Lemma events_of_snoc pkg events event :
  events_of pkg (events ++ [event])
  = events_of pkg events
    ++ (if decide (TestEvent.Package event = pkg) then [event] else []).
Proof.
  unfold events_of. by rewrite filter_app.
Qed.

(** X5: the entry of a package depends on the events of that package only:
    the stream and the stream restricted to the events of the package give
    the same entry. *)
Theorem package_entry_local events pkg :
  packages (ingest_all initial events) !! pkg
  = packages (ingest_all initial (events_of pkg events)) !! pkg.
Proof.
  induction events as [|e events IH] using rev_ind; [done|].
  rewrite events_of_snoc, ingest_all_snoc, lookup_ingest.
  case_decide as Hp.
  - by rewrite ingest_all_snoc, lookup_ingest, decide_True, IH.
  - by rewrite app_nil_r.
Qed.

End MoreAggregator.

(** ** Finalization and banners *)

Section MoreFinalization.
Implicit Types (m : gmap string PackageResult.t).
Implicit Types (l order : list (string * PackageResult.t)).

Lemma foldl_mark_kept l m k r :
  NoDup l.*1 → (k, r) ∈ l → is_skipped r = false →
  foldl mark m l !! k = m !! k.
Proof.
  revert m. induction l as [|[k' r'] l IH]; intros m Hnd Hin Hs.
  { by apply elem_of_nil in Hin. }
  simpl in *. apply NoDup_cons in Hnd as [Hk' Hnd].
  apply elem_of_cons in Hin as [[= <- <-]|Hin].
  - rewrite foldl_mark_other by done. unfold mark. simpl. by rewrite Hs.
  - rewrite (IH _ Hnd Hin Hs). unfold mark. simpl.
    destruct (is_skipped r'); [|done]. rewrite lookup_insert_ne; [done|].
    intros ->. apply Hk'. apply list_elem_of_fmap. by exists (k, r).
Qed.

(** The map after the loop, whatever its order. *)
Lemma finalize_ordered_fmap order m :
  order ≡ₚ map_to_list m →
  (finalize_ordered order m).1
  = (λ r, if is_skipped r then PackageResult.set_Skipped true r else r) <$> m.
Proof.
  intros Hp. rewrite finalize_ordered_map. apply map_eq. intros k.
  assert (NoDup order.*1) as Hnd.
  { rewrite Hp. apply NoDup_fst_map_to_list. }
  rewrite lookup_fmap. destruct (m !! k) as [r|] eqn:Ek; simpl.
  - assert ((k, r) ∈ order) as Hin.
    { rewrite Hp. by apply elem_of_map_to_list. }
    destruct (is_skipped r) eqn:Es.
    + by apply foldl_mark_skipped.
    + by rewrite (foldl_mark_kept _ _ _ r).
  - rewrite foldl_mark_other; [done|].
    intros ([k' r] & -> & Hin)%list_elem_of_fmap. simpl in Ek.
    rewrite Hp in Hin. apply elem_of_map_to_list in Hin. congruence.
Qed.

Lemma finalization_sets_Skipped_aux events order :
  order ≡ₚ map_to_list (packages (ingest_all initial events)) →
  (finalize_ordered order (packages (ingest_all initial events))).1
  = finalized <$> packages (ingest_all initial events).
Proof.
  intros Hp. rewrite finalize_ordered_fmap by done.
  apply map_eq. intros k. rewrite !lookup_fmap.
  destruct (packages (ingest_all initial events) !! k) as [r|] eqn:Ek;
    [|done].
  simpl. f_equal. destruct (entry_names events k r Ek) as (_ & Hs & _).
  unfold finalized, is_skipped.
  destruct r as [n p s d pm h]. simpl in *. subst s. by destruct h.
Qed.

(** X6: the finalization loop, in whatever order it visits the packages,
    changes one thing in the map of a stream: the [Skipped] flag of every
    package becomes the negation of its [HasTests] flag.  So a package ends
    up skipped exactly when the stream has no event of that package with a
    test identifier. *)
Theorem finalization_sets_Skipped events order :
  order ≡ₚ map_to_list (packages (ingest_all initial events)) →
  (finalize_ordered order (packages (ingest_all initial events))).1
  = finalized <$> packages (ingest_all initial events) ∧
  ∀ pkg r,
    (finalize_ordered order (packages (ingest_all initial events))).1 !! pkg
    = Some r →
    (PackageResult.Skipped r = true ↔
     ¬ ∃ e, e ∈ events ∧ TestEvent.Package e = pkg ∧
            TestEvent.Test e ≠ EmptyString).
Proof.
  intros Hp. rewrite finalization_sets_Skipped_aux by done.
  split; [done|]. intros pkg r'. rewrite lookup_fmap.
  destruct (packages (ingest_all initial events) !! pkg) as [r|] eqn:Ek;
    [|done].
  intros [= <-]. simpl. rewrite negb_true_iff.
  rewrite <-(entry_invariants_aux events pkg r Ek).
  by destruct (PackageResult.HasTests r).
Qed.

(** The packages of [interleaved_stream], finalized. *)
Lemma finalization_sets_Skipped_witness :
  (finalize (packages (ingest_all initial interleaved_stream))).1
  = finalized <$> packages (ingest_all initial interleaved_stream).
Proof.
  exact (proj1 (finalization_sets_Skipped interleaved_stream _
                  (reflexivity _))).
Defined.

Lemma banner_finalized r :
  table_banner (finalized r) = grouped_banner (finalized r) ∧
  (grouped_banner (finalized r) = " PASS " ↔ Is_true (is_passed r)) ∧
  (grouped_banner (finalized r) = " FAIL " ↔ Is_true (is_failed r)) ∧
  (grouped_banner (finalized r) = " SKIP " ↔ Is_true (is_skipped r)).
Proof.
  unfold table_banner, grouped_banner, finalized, is_passed, is_failed,
    is_skipped.
  destruct r as [n p s d pm h]. simpl.
  destruct h, p; simpl; split_and!; done.
Qed.

Lemma length_filter_fmap {A B} (P : B → Prop) `{!∀ x, Decision (P x)}
    (f : A → B) (l : list A) :
  length (filter P (f <$> l)) = length (filter (λ x, P (f x)) l).
Proof.
  induction l as [|x l IH]; [done|]. rewrite fmap_cons, !filter_cons.
  case_decide; simpl; by rewrite IH.
Qed.

Lemma banner_count_tally label (P : PackageResult.t → bool) order m :
  order ≡ₚ map_to_list m →
  (∀ r, grouped_banner (finalized r) = label ↔ Is_true (P r)) →
  banner_count label (finalized <$> m) = tally P order.
Proof.
  intros Hp HP. unfold banner_count, tally.
  rewrite map_to_list_fmap, length_filter_fmap, Hp. do 2 f_equal.
  apply list_filter_iff. intros [k r]. simpl.
  rewrite (proj1 (banner_finalized r)). apply HP.
Qed.

(** X7: the two reports label a package in the same way, with one of the
    three labels, and after the finalization of a stream each suite counter
    is the number of packages that carry its label, as an [int]. *)
Theorem banners_match_counters events order :
  order ≡ₚ map_to_list (packages (ingest_all initial events)) →
  (∀ pkg, table_banner pkg = grouped_banner pkg ∧
          grouped_banner pkg ∈ [" SKIP "; " PASS "; " FAIL "]) ∧
  let final := finalize_ordered order (packages (ingest_all initial events)) in
  suitesPassed final.2 = wrap64 (banner_count " PASS " final.1) ∧
  suitesFailed final.2 = wrap64 (banner_count " FAIL " final.1) ∧
  suitesSkipped final.2 = wrap64 (banner_count " SKIP " final.1).
Proof.
  intros Hp. split.
  { intros [n p s d pm h]. unfold table_banner, grouped_banner. simpl.
    destruct s, p; simpl; split; try done; set_solver. }
  simpl. rewrite finalization_sets_Skipped_aux by done.
  rewrite finalize_ordered_suites. simpl.
  rewrite !(banner_count_tally _ _ order) by
    (done || intros r; apply banner_finalized).
  done.
Qed.

(** The banners and the counters of [interleaved_stream]. *)
Lemma banners_match_counters_witness :
  suitesPassed
    (finalize (packages (ingest_all initial interleaved_stream))).2
  = wrap64
      (banner_count " PASS "
         (finalize (packages (ingest_all initial interleaved_stream))).1).
Proof.
  exact (proj1 (proj2 (banners_match_counters interleaved_stream _
                         (reflexivity _)))).
Defined.

End MoreFinalization.

(** ** [prettify] *)

Lemma occurs_app c s t : occurs c (s +:+ t) = occurs c s || occurs c t.
Proof.
  induction s as [|c' s IH]; [done|].
  change (String c' s +:+ t) with (String c' (s +:+ t)). simpl.
  by rewrite IH, orb_assoc.
Qed.

Lemma occurs_ReplaceAll_old s old new :
  occurs old new = false → occurs old (ReplaceAll s old new) = false.
Proof.
  intros Hn. induction s as [|c s IH]; [done|]. simpl.
  destruct (Ascii.eqb c old) eqn:E.
  - by rewrite occurs_app, Hn, IH.
  - simpl. by rewrite E, IH.
Qed.

Lemma occurs_ReplaceAll_other c s old new :
  occurs c new = false → occurs c s = false →
  occurs c (ReplaceAll s old new) = false.
Proof.
  intros Hn. induction s as [|c' s IH]; [done|]. simpl.
  intros [Hc Hs]%orb_false_iff. destruct (Ascii.eqb c' old).
  - by rewrite occurs_app, Hn, IH.
  - simpl. by rewrite Hc, IH.
Qed.

Lemma ReplaceAll_absent s old new :
  occurs old s = false → ReplaceAll s old new = s.
Proof.
  induction s as [|c s IH]; [done|]. simpl.
  intros [Hc Hs]%orb_false_iff. rewrite Hc. by rewrite IH.
Qed.

(** X8: a prettified name holds no underscore and no slash, so [prettify]
    leaves a prettified name as it is. *)
Theorem prettify_no_separator name :
  occurs "_" (prettify name) = false ∧
  occurs "/" (prettify name) = false ∧
  prettify (prettify name) = prettify name.
Proof.
  assert (occurs "_" (prettify name) = false ∧
          occurs "/" (prettify name) = false) as [H1 H2].
  { unfold prettify. split.
    - apply occurs_ReplaceAll_other; [done|].
      by apply occurs_ReplaceAll_old.
    - by apply occurs_ReplaceAll_old. }
  split; [done|]. split; [done|].
  unfold prettify at 1.
  rewrite (ReplaceAll_absent (prettify name) "_") by exact H1.
  by rewrite ReplaceAll_absent by exact H2.
Qed.

(** ** The pattern of the profile records *)

Section Pattern.
Implicit Types (s t r : string) (c : ascii) (cls : ascii → bool).
Implicit Types (re : list atom).

Lemma sapp_cons c s t : String c s +:+ t = String c (s +:+ t).
Proof. done. Qed.

Lemma sapp_nil_r s : s +:+ EmptyString = s.
Proof. induction s as [|c s IH]; [done|]. by rewrite sapp_cons, IH. Qed.

Lemma sapp_assoc s t r : (s +:+ t) +:+ r = s +:+ (t +:+ r).
Proof. induction s as [|c s IH]; [done|]. by rewrite !sapp_cons, IH. Qed.

Lemma all_in_app cls s t :
  all_in cls (s +:+ t) = all_in cls s && all_in cls t.
Proof.
  induction s as [|c s IH]; [done|]. rewrite sapp_cons. simpl.
  by rewrite IH, andb_assoc.
Qed.

(** What a successful [greedy] has taken. *)
Lemma greedy_Some {R} cls (k : string → string → option R) s v :
  greedy cls k s = Some v →
  ∃ t r, s = t +:+ r ∧ t ≠ EmptyString ∧ all_in cls t = true ∧
         k t r = Some v.
Proof.
  revert k. induction s as [|c s IH]; intros k; [done|]. simpl.
  destruct (cls c) eqn:Ec; [|done].
  destruct (greedy cls (λ taken rest, k (String c taken) rest) s)
    as [v'|] eqn:Eg.
  - intros [= ->]. apply IH in Eg as (t & r & -> & Ht & Hall & Hk).
    exists (String c t), r. simpl. by rewrite Ec, Hall.
  - intros Hk. exists (String c EmptyString), s. simpl. by rewrite Ec.
Qed.

(** [greedy] fails when the continuation fails on every split. *)
Lemma greedy_None {R} cls (k : string → string → option R) s :
  (∀ t r, t ≠ EmptyString → s = t +:+ r → k t r = None) →
  greedy cls k s = None.
Proof.
  revert k. induction s as [|c s IH]; intros k Hk; [done|]. simpl.
  destruct (cls c); [|done]. rewrite IH.
  - by apply Hk.
  - intros t r Ht ->. by apply Hk.
Qed.

(** [greedy] returns the result of the longest split on which the
    continuation succeeds. *)
Lemma greedy_first {R} cls (k : string → string → option R) t r v :
  t ≠ EmptyString → all_in cls t = true → k t r = Some v →
  (∀ u r', u ≠ EmptyString → r = u +:+ r' → k (t +:+ u) r' = None) →
  greedy cls k (t +:+ r) = Some v.
Proof.
  revert k. induction t as [|c t IH]; intros k Ht Hall Hk Hlonger; [done|].
  rewrite sapp_cons. simpl in *. apply andb_true_iff in Hall as [-> Hall].
  destruct t as [|c' t].
  - change (EmptyString +:+ r) with r.
    rewrite greedy_None; [done|]. intros u r' Hu ->. by apply (Hlonger u r').
  - rewrite (IH (λ taken rest, k (String c taken) rest)); done.
Qed.

(** When the class stops where [t] stops, [t] is the longest split. *)
Lemma greedy_max {R} cls (k : string → string → option R) t r v :
  t ≠ EmptyString → all_in cls t = true →
  match r with EmptyString => True | String c _ => cls c = false end →
  k t r = Some v →
  greedy cls k (t +:+ r) = Some v.
Proof.
  revert k. induction t as [|c t IH]; intros k Ht Hall Hr Hk; [done|].
  rewrite sapp_cons. simpl in *. apply andb_true_iff in Hall as [-> Hall].
  destruct t as [|c' t].
  - change (EmptyString +:+ r) with r.
    assert (greedy cls (λ taken rest, k (String c taken) rest) r = None)
      as ->; [|done].
    destruct r as [|c' r]; [done|]. simpl. by rewrite Hr.
  - rewrite (IH (λ taken rest, k (String c taken) rest)); done.
Qed.

Lemma exec_Lit c re s caps :
  exec (Lit c :: re) s = Some caps ↔
  ∃ r, s = String c r ∧ exec re r = Some caps.
Proof.
  simpl. destruct s as [|c' s].
  { split; [done|]. by intros (? & ? & _). }
  destruct (Ascii.eqb c c') eqn:E.
  - apply Ascii.eqb_eq in E as ->. split; [by exists s|].
    by intros (r & [= ->] & ?).
  - split; [done|]. intros (r & [= -> ->] & _).
    by rewrite Ascii.eqb_refl in E.
Qed.

Lemma exec_Plus_Some cls re s caps :
  exec (Plus cls :: re) s = Some caps →
  ∃ t r, s = t +:+ r ∧ t ≠ EmptyString ∧ all_in cls t = true ∧
         exec re r = Some caps.
Proof. simpl. apply greedy_Some. Qed.

Lemma exec_Cap_Some cls re s caps :
  exec (Cap cls :: re) s = Some caps →
  ∃ t r caps', s = t +:+ r ∧ t ≠ EmptyString ∧ all_in cls t = true ∧
               exec re r = Some caps' ∧ caps = t :: caps'.
Proof.
  simpl. intros (t & r & -> & Ht & Hall & Hk)%greedy_Some.
  destruct (exec re r) as [caps'|] eqn:E; [|done].
  injection Hk as <-. by exists t, r, caps'.
Qed.

(** A run of digits before a byte that is not a digit. *)
Lemma exec_Plus_digits re d c r caps :
  digits d → digit c = false → exec re (String c r) = Some caps →
  exec (Plus digit :: re) (d +:+ String c r) = Some caps.
Proof. intros [Hd Hall] Hc He. simpl. by apply greedy_max. Qed.

Lemma exec_Cap_digits re d c r caps :
  digits d → digit c = false → exec re (String c r) = Some caps →
  exec (Cap digit :: re) (d +:+ String c r) = Some (d :: caps).
Proof.
  intros [Hd Hall] Hc He. simpl. apply greedy_max; [done..|].
  by rewrite He.
Qed.

Lemma occurs_digits c d :
  digit c = false → all_in digit d = true → occurs c d = false.
Proof.
  intros Hc. induction d as [|c' d IH]; [done|]. simpl.
  intros [Hc' Hd]%andb_true_iff. rewrite IH by done.
  destruct (Ascii.eqb c' c) eqn:E; [|done].
  apply Ascii.eqb_eq in E. congruence.
Qed.

Lemma exec_Lit_absent c re s :
  occurs c s = false → exec (Lit c :: re) s = None.
Proof.
  destruct s as [|c' s]; [done|]. simpl.
  intros [Hc _]%orb_false_iff. rewrite Ascii.eqb_sym. by rewrite Hc.
Qed.

Lemma occurs_suffix c u r : occurs c (u +:+ r) = false → occurs c r = false.
Proof. rewrite occurs_app. by intros [_ ?]%orb_false_iff. Qed.

(** The text of a record matches, and the groups are the path, the first
    line number and the hit count. *)
Lemma exec_record path d1 d2 d3 d4 d5 d6 :
  path ≠ EmptyString → all_in dot path = true →
  digits d1 → digits d2 → digits d3 → digits d4 → digits d5 → digits d6 →
  exec coverRe (record_text path d1 d2 d3 d4 d5 d6) = Some [path; d1; d6].
Proof.
  intros Hp Hdot H1 H2 H3 H4 H5 H6.
  assert (exec [Cap digit] d6 = Some [d6]) as E6.
  { destruct H6 as [Hne Hall]. rewrite <-(sapp_nil_r d6) at 1. simpl.
    by apply greedy_max. }
  assert (exec [Plus digit; Lit " "; Cap digit] (d5 +:+ " " +:+ d6)
          = Some [d6]) as E5.
  { apply exec_Plus_digits; [done..|]. apply exec_Lit. by exists d6. }
  assert (exec [Plus digit; Lit " "; Plus digit; Lit " "; Cap digit]
            (d4 +:+ " " +:+ d5 +:+ " " +:+ d6) = Some [d6]) as E4.
  { apply exec_Plus_digits; [done..|]. apply exec_Lit. by eexists. }
  assert (exec [Plus digit; Lit "."; Plus digit; Lit " "; Plus digit;
                Lit " "; Cap digit]
            (d3 +:+ "." +:+ d4 +:+ " " +:+ d5 +:+ " " +:+ d6) = Some [d6])
    as E3.
  { apply exec_Plus_digits; [done..|]. apply exec_Lit. by eexists. }
  assert (exec [Plus digit; Lit ","; Plus digit; Lit "."; Plus digit;
                Lit " "; Plus digit; Lit " "; Cap digit]
            (d2 +:+ "," +:+ d3 +:+ "." +:+ d4 +:+ " " +:+ d5 +:+ " " +:+ d6)
          = Some [d6]) as E2.
  { apply exec_Plus_digits; [done..|]. apply exec_Lit. by eexists. }
  set (tail := d1 +:+ "." +:+ d2 +:+ "," +:+ d3 +:+ "." +:+ d4 +:+ " "
               +:+ d5 +:+ " " +:+ d6).
  set (re := [Cap digit; Lit "."; Plus digit; Lit ","; Plus digit; Lit ".";
              Plus digit; Lit " "; Plus digit; Lit " "; Cap digit]).
  assert (exec re tail = Some [d1; d6]) as E1.
  { apply exec_Cap_digits; [done..|]. apply exec_Lit. by eexists. }
  assert (occurs ":" tail = false) as Hcolon.
  { unfold tail. rewrite !occurs_app. simpl.
    destruct H1, H2, H3, H4, H5, H6.
    by rewrite !(occurs_digits ":") by done. }
  unfold record_text, coverRe. fold tail re.
  change (exec (Cap dot :: Lit ":" :: re) (path +:+ ":" +:+ tail))
    with (greedy dot (λ taken rest, cons taken <$> exec (Lit ":" :: re) rest)
            (path +:+ String ":" tail)).
  apply greedy_first; [done|done| |].
  - assert (exec (Lit ":" :: re) (String ":" tail) = Some [d1; d6]) as ->;
      [|done].
    apply exec_Lit. by exists tail.
  - intros u r' Hu Hr'. rewrite exec_Lit_absent; [done|].
    destruct u as [|c u]; [done|]. rewrite sapp_cons in Hr'.
    injection Hr' as _ ->. by apply occurs_suffix in Hcolon.
Qed.

(** The text that matches is the text of a record. *)
Lemma exec_coverRe_Some line caps :
  exec coverRe line = Some caps →
  ∃ path d1 d2 d3 d4 d5 d6,
    line = record_text path d1 d2 d3 d4 d5 d6 ∧
    path ≠ EmptyString ∧ all_in dot path = true ∧
    digits d1 ∧ digits d2 ∧ digits d3 ∧ digits d4 ∧ digits d5 ∧ digits d6 ∧
    caps = [path; d1; d6].
Proof.
  unfold coverRe.
  intros (path & r0 & c0 & -> & Hp & Hdot & H & ->)%exec_Cap_Some.
  apply exec_Lit in H as (r1 & -> & H).
  apply exec_Cap_Some in H as (d1 & r2 & c1 & -> & ? & ? & H & ->).
  apply exec_Lit in H as (r3 & -> & H).
  apply exec_Plus_Some in H as (d2 & r4 & -> & ? & ? & H).
  apply exec_Lit in H as (r5 & -> & H).
  apply exec_Plus_Some in H as (d3 & r6 & -> & ? & ? & H).
  apply exec_Lit in H as (r7 & -> & H).
  apply exec_Plus_Some in H as (d4 & r8 & -> & ? & ? & H).
  apply exec_Lit in H as (r9 & -> & H).
  apply exec_Plus_Some in H as (d5 & r10 & -> & ? & ? & H).
  apply exec_Lit in H as (r11 & -> & H).
  apply exec_Cap_Some in H as (d6 & r12 & c2 & -> & ? & ? & H & ->).
  simpl in H. destruct r12; [|done]. injection H as <-.
  exists path, d1, d2, d3, d4, d5, d6. rewrite sapp_nil_r.
  unfold digits. done.
Qed.

(** X9: the pattern matches a line exactly when the line is a non-empty
    path without line feed, a colon, and then [d.d,d.d d d] with six
    non-empty runs of decimal digits; the groups are then the path, the
    first run and the last run.  The path may hold colons, spaces and
    digits: it ends at the last colon of the line. *)
Theorem pattern_matches_records line m :
  FindStringSubmatch coverRe line = Some m ↔
  ∃ path d1 d2 d3 d4 d5 d6,
    line = record_text path d1 d2 d3 d4 d5 d6 ∧
    path ≠ EmptyString ∧ all_in dot path = true ∧
    digits d1 ∧ digits d2 ∧ digits d3 ∧ digits d4 ∧ digits d5 ∧ digits d6 ∧
    m = [line; path; d1; d6].
Proof.
  unfold FindStringSubmatch. split.
  - destruct (exec coverRe line) as [caps|] eqn:E; [|done].
    intros [= <-].
    apply exec_coverRe_Some in E
      as (path & d1 & d2 & d3 & d4 & d5 & d6 & -> & ? & ? & ? & ? & ? & ?
          & ? & ? & ->).
    by exists path, d1, d2, d3, d4, d5, d6.
  - intros (path & d1 & d2 & d3 & d4 & d5 & d6 & -> & ? & ? & ? & ? & ? & ?
            & ? & ? & ->).
    by rewrite exec_record.
Qed.

End Pattern.

(** ** The entries of the parsed profile *)

Section MoreProfile.
Implicit Types (lines : list string) (filePath line : string).

Lemma digits_value_mono s acc v :
  0 ≤ acc → digits_value s acc = Some v → acc ≤ v.
Proof.
  revert acc. induction s as [|c s IH]; intros acc Hacc; simpl.
  { intros [= <-]. lia. }
  destruct (digit c) eqn:Ec; [|done]. intros H.
  unfold digit in Ec. apply andb_true_iff in Ec as [H1 H2].
  apply N.leb_le in H1, H2. apply IH in H; lia.
Qed.

Lemma digits_value_Some s acc :
  all_in digit s = true → is_Some (digits_value s acc).
Proof.
  revert acc. induction s as [|c s IH]; intros acc; simpl; [by eexists|].
  intros [-> Hs]%andb_true_iff. by apply IH.
Qed.

(** The number that a run of digits stands for, cut at the largest [int]. *)
Lemma Atoi_digits d : digits d → 0 ≤ Atoi d ≤ max_int.
Proof.
  intros [Hne Hall]. destruct d as [|c d]; [done|].
  assert (digit c = true) as Hc by (simpl in Hall; by destruct (digit c)).
  destruct (digits_value_Some (String c d) 0 Hall) as [v Hv].
  pose proof (digits_value_mono _ _ _ (Z.le_refl 0) Hv) as Hpos.
  assert (Atoi (String c d) = Z.min v max_int) as ->.
  { unfold Atoi.
    assert (c ≠ "-"%char ∧ c ≠ "+"%char) as [Hm Hp].
    { split; intros ->; done. }
    destruct c as [[] [] [] [] [] [] [] []];
      try done; by rewrite Hv. }
  unfold max_int. lia.
Qed.

(** What a record holds: a path that is not empty and numbers of [int]
    that are not negative. *)
Lemma matched_Some line f n c :
  matched line = Some (f, n, c) →
  f ≠ EmptyString ∧ all_in dot f = true ∧
  0 ≤ n ≤ max_int ∧ 0 ≤ c ≤ max_int.
Proof.
  unfold matched. destruct (HasPrefix line "mode:"); [done|].
  unfold FindStringSubmatch.
  destruct (exec coverRe line) as [caps|] eqn:E; [|done].
  apply exec_coverRe_Some in E
    as (path & d1 & d2 & d3 & d4 & d5 & d6 & -> & ? & ? & ? & ? & ? & ?
        & ? & ? & ->).
  simpl. intros [= <- <- <-]. auto using Atoi_digits.
Qed.

Lemma elem_of_line_numbers sel filePath lines n :
  n ∈ line_numbers sel filePath lines ↔
  ∃ line c, line ∈ lines ∧ matched line = Some (filePath, n, c) ∧
            sel c = true.
Proof.
  unfold line_numbers. rewrite list_elem_of_omap. split.
  - intros (line & Hin & H).
    destruct (matched line) as [[[f n'] c]|] eqn:Em; [|done].
    case_bool_decide as Hf; [|done]. simpl in H.
    destruct (sel c) eqn:Es; [|done]. injection H as ->. subst f.
    by exists line, c.
  - intros (line & c & Hin & Em & Es). exists line. split; [done|].
    rewrite Em, Es. by rewrite bool_decide_eq_true_2.
Qed.

Lemma scan_File lines filePath fc :
  scan ∅ lines !! filePath = Some fc → FileCoverage.File fc = filePath.
Proof.
  revert fc. induction lines as [|line lines IH] using rev_ind; intros fc.
  { intros H. change (scan ∅ []) with (∅ : gmap string FileCoverage.t) in H.
    by apply lookup_empty_Some in H. }
  rewrite scan_snoc, record_line_matched.
  destruct (matched line) as [[[f n] c]|]; [|apply IH].
  destruct (decide (f = filePath)) as [->|Hne].
  2: { rewrite lookup_insert_ne by done. apply IH. }
  rewrite lookup_insert_eq. intros [= <-].
  assert (FileCoverage.File
            (default (FileCoverage.new filePath) (scan ∅ lines !! filePath))
          = filePath) as Hd.
  { destruct (scan ∅ lines !! filePath) as [fc|] eqn:E; simpl; [|done].
    by apply IH. }
  unfold add_line. by destruct (0 <? c).
Qed.

(** The entry of a file in the parsed profile. *)
Lemma scan_lookup lines filePath :
  scan ∅ lines !! filePath
  = match line_numbers any_count filePath lines with
    | [] => None
    | _ :: _ => Some (entry_of filePath lines)
    end.
Proof.
  destruct (scan_sets lines filePath) as [Ht Hcu].
  destruct (scan ∅ lines !! filePath) as [fc|] eqn:E; simpl in Ht.
  - destruct (Hcu fc eq_refl) as [Hc Hu]. apply scan_File in E.
    destruct (line_numbers any_count filePath lines) as [|n l] eqn:El;
      [done|].
    injection Ht as Ht. f_equal. unfold entry_of. rewrite El.
    destruct fc as [F C U T]. simpl in *. by subst.
  - by destruct (line_numbers any_count filePath lines).
Qed.



(** X10: every entry of the map that [parseCoverProfile] returns carries
    its own key as [File]; the key is not empty and has no line feed; the
    entry has at least one line in [Total]; and every line number of its
    three sets is between 0 and the largest [int]. *)
Theorem profile_entry_invariants (Open : FileSystem) path fileData filePath
    fc :
  (parseCoverProfile Open path).1 = Some fileData →
  fileData !! filePath = Some fc →
  FileCoverage.File fc = filePath ∧
  filePath ≠ EmptyString ∧ all_in dot filePath = true ∧
  FileCoverage.Total fc ≠ ∅ ∧
  ∀ n, n ∈ FileCoverage.Total fc ∪ FileCoverage.Covered fc
           ∪ FileCoverage.Uncovered fc →
       0 ≤ n ≤ max_int.
Proof.
  unfold parseCoverProfile. destruct (Open path) as [e|file]; [done|]. simpl.
  intros [= <-] Hfc. pose proof (scan_union _ _ _ Hfc) as Hu.
  rewrite scan_lookup in Hfc.
  destruct (line_numbers any_count filePath (lines file)) as [|n0 l] eqn:El;
    [done|].
  injection Hfc as <-. simpl in *.
  assert (n0 ∈ line_numbers any_count filePath (lines file)) as Hn0.
  { rewrite El. left. }
  pose proof Hn0 as (line & c & _ & Em & _)%elem_of_line_numbers.
  apply matched_Some in Em as (Hne & Hdot & _).
  split_and!; [done..| |].
  - rewrite El. set_solver.
  - intros n Hn.
    assert (n ∈ (list_to_set (line_numbers any_count filePath (lines file))
                 : gset Z)) as Hn'.
    { clear -Hn Hu. set_solver. }
    apply elem_of_list_to_set, elem_of_line_numbers in Hn'
      as (line' & c' & _ & Em & _).
    by apply matched_Some in Em as (_ & _ & ? & _).
Qed.


(** The only file of [sample_fs]. *)
Lemma profile_entry_invariants_witness :
  (parseCoverProfile sample_fs "cover.out").1
  = Some (scan ∅ overlapping_profile) ∧
  scan ∅ overlapping_profile !! "f.go" = Some overlapping_entry ∧
  FileCoverage.File overlapping_entry = "f.go" ∧
  ∀ n, n ∈ FileCoverage.Total overlapping_entry
           ∪ FileCoverage.Covered overlapping_entry
           ∪ FileCoverage.Uncovered overlapping_entry →
       0 ≤ n ≤ max_int.
Proof.
  assert (scan ∅ overlapping_profile !! "f.go" = Some overlapping_entry)
    as H by (vm_compute; reflexivity).
  split; [reflexivity|]. split; [exact H|].
  pose proof (profile_entry_invariants sample_fs "cover.out" _ "f.go" _
                eq_refl H) as (H1 & _ & _ & _ & H2).
  split; [exact H1|exact H2].
Defined.


End MoreProfile.

(** ** The shape of the coverage tree *)

Section MoreTree.
Implicit Types (node : TreeNode.t) (fc gc : FileCoverage.t).
Implicit Types (p q parts : list string).

(** Two walks commute when neither path leads through the other. *)
Lemma descend_comm p q fc gc node :
  ¬ p `prefix_of` q → ¬ q `prefix_of` p →
  descend p fc (descend q gc node) = descend q gc (descend p fc node).
Proof.
  revert q node. induction p as [|a p IH]; intros q node Hpq Hqp.
  { exfalso. apply Hpq, prefix_nil. }
  destruct q as [|b q]; [exfalso; apply Hqp, prefix_nil|].
  rewrite (descend_cons b q gc node), (descend_cons a p fc node).
  rewrite !descend_cons. unfold TreeNode.set_Children. simpl. f_equal.
  destruct (decide (a = b)) as [->|Hab].
  - rewrite !lookup_insert_eq, !insert_insert_eq. simpl. f_equal.
    assert (p ≠ [] ∧ q ≠ []) as [Hp Hq].
    { split; intros ->; [apply Hpq|apply Hqp];
        apply prefix_cons, prefix_nil. }
    assert (¬ p `prefix_of` q) by (intros ?; by apply Hpq, prefix_cons).
    assert (¬ q `prefix_of` p) by (intros ?; by apply Hqp, prefix_cons).
    destruct p as [|a' p]; [done|]. destruct q as [|b' q]; [done|].
    by apply IH.
  - rewrite !lookup_insert_ne by done. by apply insert_insert_ne.
Qed.

Lemma insert_file_perm (l l' : list (string * FileCoverage.t)) :
  l ≡ₚ l' → NoDup l →
  (∀ e1 e2, e1 ∈ l → e2 ∈ l → e1 ≠ e2 →
            ¬ segments e1.1 `prefix_of` segments e2.1) →
  ∀ root, foldl insert_file root l = foldl insert_file root l'.
Proof.
  induction 1 as [|x l l' Hp IH|x y l|l l' l'' Hp IH Hp' IH'];
    intros Hnd Hfree root.
  - done.
  - simpl. apply NoDup_cons in Hnd as [_ Hnd]. apply IH; [done|].
    intros e1 e2 H1 H2. apply Hfree; by right.
  - simpl. f_equal. apply NoDup_cons in Hnd as [Hy _].
    assert (y ≠ x) as Hne. { intros ->. apply Hy. left. }
    unfold insert_file. apply descend_comm.
    + apply Hfree; [right; left|left|done].
    + apply Hfree; [left|right; left|done].
  - rewrite IH by done. apply IH'.
    + by rewrite <-Hp.
    + intros e1 e2 H1 H2. apply Hfree; by rewrite Hp.
Qed.

Lemma conflict_free_entries fileData e1 e2 :
  conflict_free fileData →
  e1 ∈ map_to_list fileData → e2 ∈ map_to_list fileData → e1 ≠ e2 →
  ¬ segments e1.1 `prefix_of` segments e2.1.
Proof.
  destruct e1 as [f fc], e2 as [g gc]. intros Hfree H1 H2 Hne.
  apply elem_of_map_to_list in H1, H2. simpl.
  apply Hfree; [by apply elem_of_dom|by apply elem_of_dom|].
  intros ->. apply Hne. f_equal. congruence.
Qed.

Lemma buildTree_ordered_perm fileData (order : list (string * FileCoverage.t)) :
  conflict_free fileData → order ≡ₚ map_to_list fileData →
  buildTree_ordered order = buildTree fileData.
Proof.
  intros Hfree Hp. unfold buildTree, buildTree_ordered. symmetry.
  apply insert_file_perm; [done|apply NoDup_map_to_list|].
  intros e1 e2. by apply conflict_free_entries.
Qed.

Lemma two_files_conflict_free : conflict_free two_files_data.
Proof.
  assert (dom two_files_data = {["a/x.go"; "b.go"]}) as Hdom
    by (vm_compute; reflexivity).
  intros f g Hf Hg Hne. rewrite Hdom in Hf, Hg. clear Hdom.
  apply elem_of_union in Hf as [Hf|Hf]; apply elem_of_singleton in Hf;
    apply elem_of_union in Hg as [Hg|Hg]; apply elem_of_singleton in Hg;
    subst f g; try (by destruct Hne); clear Hne;
    refine (proj1 (bool_decide_eq_false _) _); vm_compute; reflexivity.
Qed.

(** X12: when no file path of the profile leads through another one, the
    tree that [buildTree] makes does not depend on the order in which the
    loop visits the map: every order of the entries gives the same tree, so
    the same aggregated tree. *)
Theorem tree_independent_of_visit_order fileData
    (order order' : list (string * FileCoverage.t)) :
  conflict_free fileData →
  order ≡ₚ map_to_list fileData → order' ≡ₚ map_to_list fileData →
  buildTree_ordered order = buildTree_ordered order' ∧
  aggregate (buildTree_ordered order) = aggregate (buildTree fileData).
Proof.
  intros Hfree Hp Hp'.
  rewrite (buildTree_ordered_perm fileData order),
    (buildTree_ordered_perm fileData order'); done.
Qed.

(** The two files of [two_files_data], in the order of the map and in the
    other order. *)
Lemma tree_independent_of_visit_order_witness :
  conflict_free two_files_data ∧
  buildTree_ordered (reverse (map_to_list two_files_data))
  = buildTree_ordered (map_to_list two_files_data).
Proof.
  split; [exact two_files_conflict_free|].
  exact (proj1 (tree_independent_of_visit_order two_files_data _ _
                  two_files_conflict_free (reverse_Permutation _)
                  (reflexivity _))).
Defined.

Lemma aggregate_Name node :
  TreeNode.Name (aggregate node) = TreeNode.Name node.
Proof.
  destruct (TreeNode.IsDir node) eqn:Ed.
  - by rewrite aggregate_dir.
  - by rewrite aggregate_file.
Qed.

Lemma aggregate_IsDir node :
  TreeNode.IsDir (aggregate node) = TreeNode.IsDir node.
Proof.
  destruct (TreeNode.IsDir node) eqn:Ed.
  - by rewrite aggregate_dir.
  - by rewrite aggregate_file.
Qed.

Lemma aggregate_Uncovered node :
  TreeNode.Uncovered (aggregate node) = TreeNode.Uncovered node.
Proof.
  destruct (TreeNode.IsDir node) eqn:Ed.
  - by rewrite aggregate_dir.
  - by rewrite aggregate_file.
Qed.

Lemma aggregate_named node :
  all_nodes named node → all_nodes named (aggregate node).
Proof.
  induction 1 as [node Hn Hch IH].
  destruct (TreeNode.IsDir node) eqn:Ed.
  - rewrite aggregate_dir by done. constructor; unfold named; simpl.
    + intros k child. rewrite lookup_fmap.
      destruct (TreeNode.Children node !! k) as [c|] eqn:Ec; [|done].
      intros [= <-]. rewrite aggregate_Name. by apply (Hn k).
    + intros k child. rewrite lookup_fmap.
      destruct (TreeNode.Children node !! k) as [c|] eqn:Ec; [|done].
      intros [= <-]. by apply (IH k).
  - rewrite aggregate_file by done. by constructor.
Qed.

Lemma aggregate_dir_clean node :
  all_nodes dir_clean node → all_nodes dir_clean (aggregate node).
Proof.
  induction 1 as [node Hn Hch IH].
  destruct (TreeNode.IsDir node) eqn:Ed.
  - rewrite aggregate_dir by done. constructor; simpl.
    + intros _. by apply Hn.
    + intros k child. rewrite lookup_fmap.
      destruct (TreeNode.Children node !! k) as [c|] eqn:Ec; [|done].
      intros [= <-]. by apply (IH k).
  - rewrite aggregate_file by done. by constructor.
Qed.

(** A node of the aggregated tree is a node of the tree. *)
Lemma lookup_aggregate_Some p node node' :
  lookup_path p (aggregate node) = Some node' →
  is_Some (lookup_path p node).
Proof.
  revert node. induction p as [|s p IH]; intros node; [by eexists|].
  destruct (TreeNode.IsDir node) eqn:Ed.
  - rewrite aggregate_dir by done. simpl. rewrite lookup_fmap.
    destruct (TreeNode.Children node !! s) as [c|] eqn:Ec; simpl; [|done].
    apply IH.
  - rewrite aggregate_file by done. intros H. by eexists.
Qed.

Lemma lookup_path_snoc p key node :
  lookup_path (p ++ [key]) node
  = lookup_path p node ≫= λ parent, TreeNode.Children parent !! key.
Proof.
  revert node. induction p as [|s p IH]; intros node; simpl.
  - by destruct (TreeNode.Children node !! key).
  - destruct (TreeNode.Children node !! s) as [c|]; simpl; [apply IH|done].
Qed.

Lemma lookup_path_all_nodes P p root node :
  all_nodes P root → lookup_path p root = Some node → all_nodes P node.
Proof.
  revert root. induction p as [|s p IH]; intros root Hall; simpl.
  { by intros [= <-]. }
  apply all_nodes_inv in Hall as [_ Hall].
  destruct (TreeNode.Children root !! s) as [c|] eqn:Ec; [|done]. simpl.
  apply IH. by apply (Hall s).
Qed.

Lemma lookup_path_named p key root node :
  all_nodes named root → lookup_path (p ++ [key]) root = Some node →
  TreeNode.Name node = key.
Proof.
  intros Hall. rewrite lookup_path_snoc.
  destruct (lookup_path p root) as [parent|] eqn:E; [|done]. simpl.
  intros Hk. apply (lookup_path_all_nodes _ _ _ _ Hall) in E.
  apply all_nodes_inv in E as [Hn _]. by apply (Hn key).
Qed.

Lemma descend_Name parts fc node :
  TreeNode.Name (descend parts fc node) = TreeNode.Name node.
Proof. by destruct parts. Qed.

Lemma descend_named parts fc node :
  all_nodes named node → all_nodes named (descend parts fc node).
Proof.
  revert node. induction parts as [|part rest IH]; intros node Hall.
  - apply all_nodes_inv in Hall as [Hn Hall]. by constructor.
  - rewrite descend_cons. apply all_nodes_inv in Hall as [Hn Hall].
    constructor; unfold named; simpl.
    + apply map_Forall_insert_2; [|done]. rewrite descend_Name.
      destruct (TreeNode.Children node !! part) as [c|] eqn:Ec; simpl; [|done].
      by apply (Hn part).
    + apply map_Forall_insert_2; [|done]. apply IH.
      destruct (TreeNode.Children node !! part) as [c|] eqn:Ec; simpl.
      * by apply (Hall part).
      * constructor; [apply map_Forall_empty|apply map_Forall_empty].
Qed.

Lemma build_root (order : list (string * FileCoverage.t)) :
  TreeNode.Name (buildTree_ordered order) = "." ∧
  TreeNode.IsDir (buildTree_ordered order) = true.
Proof.
  induction order as [|entry order IH] using rev_ind; [done|].
  by rewrite buildTree_ordered_snoc, descend_Name, descend_IsDir.
Qed.

Lemma build_named (order : list (string * FileCoverage.t)) :
  all_nodes named (buildTree_ordered order).
Proof.
  induction order as [|entry order IH] using rev_ind.
  - constructor; apply map_Forall_empty.
  - rewrite buildTree_ordered_snoc. by apply descend_named.
Qed.

Lemma build_on_path (order : list (string * FileCoverage.t)) p node :
  p ≠ [] → lookup_path p (buildTree_ordered order) = Some node →
  ∃ entry, entry ∈ order ∧ p `prefix_of` segments entry.1.
Proof.
  intros Hp. revert node.
  induction order as [|entry order IH] using rev_ind; intros node.
  { destruct p as [|s p]; [done|]. simpl. by rewrite lookup_empty. }
  rewrite buildTree_ordered_snoc.
  intros [(node0 & Hl & _)|[Hpre _]]%lookup_descend.
  - destruct (IH _ Hl) as (e & He & Hpre). exists e.
    split; [|done]. apply elem_of_app. by left.
  - exists entry. split; [|done]. apply elem_of_app. right. left.
Qed.

(** X13: whatever the profile and the order of the visit, the tree that is
    rendered has the root directory [.]; every node is kept by its parent
    under its own name, so no two children of a node share a name; and every
    node other than the root lies on the path of a file of the profile. *)
Theorem tree_shape (order : list (string * FileCoverage.t)) :
  TreeNode.Name (aggregate (buildTree_ordered order)) = "." ∧
  TreeNode.IsDir (aggregate (buildTree_ordered order)) = true ∧
  all_nodes named (aggregate (buildTree_ordered order)) ∧
  ∀ p key node,
    lookup_path (p ++ [key]) (aggregate (buildTree_ordered order))
    = Some node →
    TreeNode.Name node = key ∧
    ∃ entry, entry ∈ order ∧ (p ++ [key]) `prefix_of` segments entry.1.
Proof.
  destruct (build_root order) as [Hname Hdir].
  pose proof (aggregate_named _ (build_named order)) as Hnamed.
  rewrite aggregate_Name, aggregate_IsDir. split_and!; [done..|].
  intros p key node Hl. split; [by eapply lookup_path_named|].
  apply lookup_aggregate_Some in Hl as [node0 Hl].
  apply (build_on_path order _ node0); [|done]. by destruct p.
Qed.

(** *** The uncovered lines *)

Lemma StronglySorted_le_lt (l : list Z) :
  StronglySorted Z.le l → NoDup l → StronglySorted Z.lt l.
Proof.
  induction 1 as [|x l Hs IH Hx]; intros Hnd; constructor.
  - apply IH. by apply NoDup_cons in Hnd as [_ ?].
  - apply NoDup_cons in Hnd as [Hin _]. apply Forall_forall.
    intros y Hy. pose proof (proj1 (Forall_forall _ _) Hx y Hy).
    assert (x ≠ y) by (by intros ->). lia.
Qed.

(** The list that lines 131-135 make of the set of uncovered lines. *)
Lemma file_uncovered_sorted fc :
  StronglySorted Z.lt (file_uncovered fc) ∧
  (∀ n, n ∈ file_uncovered fc ↔ n ∈ FileCoverage.Uncovered fc) ∧
  length (file_uncovered fc) = size (FileCoverage.Uncovered fc).
Proof.
  unfold file_uncovered.
  pose proof (merge_sort_Permutation Z.le
                (elements (FileCoverage.Uncovered fc))) as Hp.
  split_and!.
  - apply StronglySorted_le_lt.
    + apply (StronglySorted_merge_sort Z.le).
    + rewrite Hp. apply NoDup_elements.
  - intros n. by rewrite Hp, elem_of_elements.
  - by rewrite Hp.
Qed.

Lemma descend_dir_clean parts fc node :
  insertable parts node → all_nodes dir_clean node →
  all_nodes dir_clean (descend parts fc node).
Proof.
  revert node. induction parts as [|part rest IH]; intros node Hins Hall.
  - destruct Hins as (Hd & _). apply all_nodes_inv in Hall as [_ Hall].
    constructor; [|done]. intros H. simpl in H. congruence.
  - rewrite descend_cons. destruct Hins as [Hd Hins].
    apply all_nodes_inv in Hall as [Hn Hall]. constructor; simpl; [done|].
    apply map_Forall_insert_2; [|done].
    destruct (TreeNode.Children node !! part) as [c|] eqn:Ec; simpl.
    + apply IH; [by destruct Hins|by apply (Hall part)].
    + apply IH; [apply insertable_new|].
      constructor; [done|apply map_Forall_empty].
Qed.

Lemma build_insertable (order : list (string * FileCoverage.t)) entry :
  (∀ i j e1 e2, (order ++ [entry]) !! i = Some e1 →
                (order ++ [entry]) !! j = Some e2 → i ≠ j →
                ¬ segments e1.1 `prefix_of` segments e2.1) →
  insertable (segments entry.1) (buildTree_ordered order).
Proof.
  intros Hfree.
  assert (∀ i j e1 e2, order !! i = Some e1 → order !! j = Some e2 → i ≠ j →
            ¬ segments e1.1 `prefix_of` segments e2.1) as Hfree'.
  { intros i j e1 e2 H1 H2. apply Hfree; by apply lookup_app_l_Some. }
  assert ((order ++ [entry]) !! length order = Some entry) as Hlast.
  { by rewrite lookup_app_r, Nat.sub_diag by lia. }
  destruct (build_inv order Hfree') as [Hinv _].
  apply (insertable_fresh _ _ _ Hinv); [apply Split_nonempty|].
  intros q' (e & -> & [j Hj]%list_elem_of_lookup)%list_elem_of_fmap.
  assert (j < length order)%nat by (by eapply lookup_lt_Some).
  split.
  - apply (Hfree (length order) j); [done| |lia].
    by apply lookup_app_l_Some.
  - apply (Hfree j (length order)); [|done|lia].
    by apply lookup_app_l_Some.
Qed.

Lemma build_dir_clean (order : list (string * FileCoverage.t)) :
  (∀ i j e1 e2, order !! i = Some e1 → order !! j = Some e2 → i ≠ j →
                ¬ segments e1.1 `prefix_of` segments e2.1) →
  all_nodes dir_clean (buildTree_ordered order).
Proof.
  induction order as [|entry order IH] using rev_ind; intros Hfree.
  { constructor; [done|apply map_Forall_empty]. }
  rewrite buildTree_ordered_snoc. apply descend_dir_clean.
  - by apply build_insertable.
  - apply IH. intros i j e1 e2 H1 H2. apply Hfree; by apply lookup_app_l_Some.
Qed.

(** *** The percentages *)

Lemma descend_coverage_built parts fc node :
  parts ≠ [] → insertable parts node → all_nodes coverage_built node →
  all_nodes coverage_built (descend parts fc node).
Proof.
  revert node. induction parts as [|part rest IH]; intros node Hne Hins Hall;
    [done|].
  rewrite descend_cons. destruct Hins as [Hd Hins].
  apply all_nodes_inv in Hall as [Hn Hall].
  constructor; [done|]. simpl. apply map_Forall_insert_2; [|done].
  destruct rest as [|part' rest].
  - destruct (TreeNode.Children node !! part) as [c|] eqn:Ec;
      [by destruct Hins|].
    simpl. constructor; [|apply map_Forall_empty].
    unfold coverage_built, coverage_of_counts. simpl.
    by destruct (0 <? Z.of_nat (size (FileCoverage.Total fc))).
  - destruct (TreeNode.Children node !! part) as [c|] eqn:Ec; simpl.
    + apply IH; [done|by destruct Hins|by apply (Hall part)].
    + apply IH; [done|apply (insertable_new part (part' :: rest))|].
      constructor; [done|apply map_Forall_empty].
Qed.

Lemma build_coverage_built (order : list (string * FileCoverage.t)) :
  (∀ i j e1 e2, order !! i = Some e1 → order !! j = Some e2 → i ≠ j →
                ¬ segments e1.1 `prefix_of` segments e2.1) →
  all_nodes coverage_built (buildTree_ordered order).
Proof.
  induction order as [|entry order IH] using rev_ind; intros Hfree.
  { constructor; [done|apply map_Forall_empty]. }
  rewrite buildTree_ordered_snoc. apply descend_coverage_built.
  - apply Split_nonempty.
  - by apply build_insertable.
  - apply IH. intros i j e1 e2 H1 H2. apply Hfree; by apply lookup_app_l_Some.
Qed.

Lemma aggregate_coverage node :
  all_nodes leaf_like node → all_nodes coverage_built node →
  all_nodes coverage_of_counts (aggregate node).
Proof.
  intros Hleaf. induction 1 as [node Hn _ IH].
  apply all_nodes_inv in Hleaf as [Hl Hleaf].
  unfold coverage_built in Hn.
  destruct (TreeNode.IsDir node) eqn:Ed.
  - rewrite aggregate_dir by done. constructor; simpl.
    + unfold coverage_of_counts. simpl. rewrite Hn.
      by destruct (0 <? sum_Total (aggregate <$> TreeNode.Children node)).
    + intros k child. rewrite lookup_fmap.
      destruct (TreeNode.Children node !! k) as [c|] eqn:Ec; [|done].
      intros [= <-]. apply (IH k c Ec). by apply (Hleaf k).
  - rewrite aggregate_file by done. constructor; [done|].
    rewrite Hl by done. apply map_Forall_empty.
Qed.

(** X14: when no file path of the profile leads through another one, the
    percentage of every node of the rendered tree, file or directory, is
    that of the two counts of the same node, covered lines by lines times
    100, and it is 0 on a node without lines. *)
Theorem percentages_match_counts fileData
    (order : list (string * FileCoverage.t)) :
  conflict_free fileData → order ≡ₚ map_to_list fileData →
  all_nodes coverage_of_counts (aggregate (buildTree_ordered order)).
Proof.
  intros Hfree Hp.
  pose proof (conflict_free_order _ _ Hfree Hp) as Hord.
  destruct (build_inv order Hord) as ((Hall & _) & _).
  by apply aggregate_coverage, build_coverage_built.
Qed.

(** The tree of [two_files_data], whose root has 2 lines of 3 covered. *)
Lemma percentages_match_counts_witness :
  conflict_free two_files_data ∧
  TreeNode.Coverage (aggregate (buildTree two_files_data))
  = percentage 2 3.
Proof.
  split; [exact two_files_conflict_free|].
  pose proof (percentages_match_counts two_files_data _
                two_files_conflict_free (reflexivity _)) as H.
  apply all_nodes_inv in H as [H _]. exact H.
Defined.

(** X15: when no file path of the profile leads through another one, the
    node of every file of the profile holds its uncovered lines in strictly
    ascending order, each of them once and no other number, and no
    directory of the rendered tree holds uncovered lines. *)
Theorem uncovered_lines_sorted fileData
    (order : list (string * FileCoverage.t)) filePath fc :
  conflict_free fileData → order ≡ₚ map_to_list fileData →
  fileData !! filePath = Some fc →
  all_nodes dir_clean (aggregate (buildTree_ordered order)) ∧
  ∃ node,
    lookup_path (segments filePath) (aggregate (buildTree_ordered order))
    = Some node ∧
    TreeNode.IsDir node = false ∧
    StronglySorted Z.lt (TreeNode.Uncovered node) ∧
    (∀ n, n ∈ TreeNode.Uncovered node ↔ n ∈ FileCoverage.Uncovered fc) ∧
    length (TreeNode.Uncovered node) = size (FileCoverage.Uncovered fc).
Proof.
  intros Hfree Hp Hfc.
  pose proof (conflict_free_order _ _ Hfree Hp) as Hord.
  split; [by apply aggregate_dir_clean, build_dir_clean|].
  destruct (build_inv order Hord) as ((Hall & _) & _).
  destruct (build_leaves order (filePath, fc) Hord) as (node & Hl & Hs).
  { rewrite Hp. by apply elem_of_map_to_list. }
  simpl in Hl, Hs. unfold summary in Hs. injection Hs as _ _ Hu Hd.
  exists node. rewrite lookup_aggregate, Hl by done. simpl.
  rewrite aggregate_file by done. rewrite Hu.
  split; [done|]. split; [done|]. apply file_uncovered_sorted.
Qed.

(** The file [a/x.go] of [two_files_data], whose line 2 is not covered. *)
Lemma uncovered_lines_sorted_witness :
  conflict_free two_files_data ∧
  two_files_data !! "a/x.go"
  = Some (FileCoverage.mk "a/x.go" {[1]} {[2]} {[1; 2]}) ∧
  all_nodes dir_clean (aggregate (buildTree two_files_data)).
Proof.
  assert (two_files_data !! "a/x.go"
          = Some (FileCoverage.mk "a/x.go" {[1]} {[2]} {[1; 2]})) as H
    by (vm_compute; reflexivity).
  split; [exact two_files_conflict_free|]. split; [exact H|].
  exact (proj1 (uncovered_lines_sorted two_files_data _ "a/x.go" _
                  two_files_conflict_free (reflexivity _) H)).
Defined.

End MoreTree.

(** * Rendering

    ** The progress bar *)

Section Progress.
Implicit Types (events : list TestEvent.t).

Lemma Repeat_Some s count :
  0 ≤ count → Z.of_nat (String.length s) * count ≤ max_int →
  Repeat s count = Some (repeated s (Z.to_nat count)).
Proof.
  intros H0 Hmax. unfold Repeat.
  destruct (count <? 0) eqn:E0; [lia|].
  destruct (max_int <? Z.of_nat (String.length s) * count) eqn:E1; [lia|done].
Qed.

Lemma Repeat_negative s count : count < 0 → Repeat s count = None.
Proof. intros H. unfold Repeat. destruct (count <? 0) eqn:E; [done|lia]. Qed.

Lemma printProgress_Some testsDone :
  0 ≤ Z.rem testsDone 21 →
  printProgress testsDone
  = Some (String "013" "Running tests: ["
          +:+ (repeated block (Z.to_nat (Z.rem testsDone 21))
               +:+ repeated " " (Z.to_nat (20 - Z.rem testsDone 21)))
          +:+ "] " +:+ Itoa testsDone +:+ " tests done").
Proof.
  intros H0. unfold printProgress.
  change (20 + 1) with 21.
  assert (Z.abs (Z.rem testsDone 21) < Z.abs 21) as Hlt
    by (apply Z.rem_bound_abs; lia).
  assert (max_int = 9223372036854775807) as Hmax by done.
  rewrite (Repeat_Some block), (Repeat_Some " "); [done|simpl; lia..].
Qed.

Lemma count_pass_fail events :
  0 ≤ count_events (λ e, test_scoped e && has_action "pass" e) events
      + count_events (λ e, test_scoped e && has_action "fail" e) events
  ≤ Z.of_nat (length events).
Proof.
  induction events as [|e events IH] using rev_ind; [done|].
  rewrite !count_events_snoc, length_app, Nat2Z.inj_add. simpl.
  assert (has_action "pass" e && has_action "fail" e = false) as Hx.
  { unfold has_action.
    destruct (String.eqb (TestEvent.Action e) "pass") eqn:Ep; [|done].
    apply String.eqb_eq in Ep. by rewrite Ep. }
  destruct (test_scoped e), (has_action "pass" e), (has_action "fail" e);
    simpl in *; try done; lia.
Qed.

(** X16: while the input loop reads a stream of fewer than 2^63 records, the
    counter of processed tests is the number of test-scoped pass and fail
    events read so far, and [printProgress] does not panic on it: the bar
    that it prints has as many squares as the remainder of that number by 21
    and blanks up to 20 cells, so it is empty again after every 21 tests. *)
Theorem progress_bar_of_stream events :
  Z.of_nat (length events) ≤ max_int →
  let processed :=
    count_events (λ e, test_scoped e && has_action "pass" e) events
    + count_events (λ e, test_scoped e && has_action "fail" e) events in
  testsDone (ingest_all initial events) = processed ∧
  printProgress (testsDone (ingest_all initial events))
  = Some (String "013" "Running tests: ["
          +:+ (repeated block (Z.to_nat (processed mod 21))
               +:+ repeated " " (20 - Z.to_nat (processed mod 21)))
          +:+ "] " +:+ Itoa processed +:+ " tests done").
Proof.
  intros Hlen processed.
  destruct (test_counters_aux events) as (_ & _ & Hd).
  pose proof (count_pass_fail events) as Hb. fold processed in Hd, Hb.
  assert (testsDone (ingest_all initial events) = processed) as ->.
  { rewrite Hd. apply wrap64_small. unfold max_int in *. lia. }
  split; [done|].
  assert (Z.rem processed 21 = processed mod 21) as Hrem
    by (apply Z.rem_mod_nonneg; lia).
  pose proof (Z.mod_pos_bound processed 21 eq_refl) as Hm.
  rewrite printProgress_Some by lia. rewrite Hrem.
  by replace (Z.to_nat (20 - processed mod 21))
    with (20 - Z.to_nat (processed mod 21))%nat by lia.
Qed.

(** The five events of [foo_stream], three of which are counted. *)
Lemma progress_bar_of_stream_witness :
  Z.of_nat (length foo_stream) ≤ max_int ∧
  testsDone (ingest_all initial foo_stream) = 3.
Proof.
  assert (Z.of_nat (length foo_stream) ≤ max_int) as H by (vm_compute; done).
  split; [exact H|].
  exact (proj1 (progress_bar_of_stream foo_stream H)).
Defined.

(** X17: [printProgress] panics exactly on the negative numbers that are
    no multiples of 21, on which the number of squares would be negative. *)
Theorem progress_panics_on_negative testsDone :
  printProgress testsDone = None ↔
  testsDone < 0 ∧ Z.rem testsDone 21 ≠ 0.
Proof.
  split.
  - intros Hn. destruct (decide (0 ≤ Z.rem testsDone 21)) as [H0|H0].
    { by rewrite printProgress_Some in Hn. }
    split; [|lia].
    destruct (decide (testsDone < 0)) as [|Hpos]; [done|].
    pose proof (Z.rem_nonneg testsDone 21 ltac:(lia) ltac:(lia)). lia.
  - intros [Hneg Hrem]. unfold printProgress. cbv zeta.
    change (20 + 1) with 21.
    assert (Z.rem testsDone 21 ≤ 0) by (apply Z.rem_nonpos; lia).
    by rewrite (Repeat_negative block) by lia.
Qed.

End Progress.

(** ** The rows of the coverage table *)

Section Rows.
Implicit Types (node root : TreeNode.t) (depth : Z) (rows : list TableRow.t).
Implicit Types (p : list string).

(** The children of a node with their rows, in the order of the visit. *)
Lemma addRows_unfold node depth :
  addRows node depth
  = indent ← Repeat "  " depth;
    below ← mapM snd
      (merge_sort by_Name
         (map_to_list
            ((λ child, (TreeNode.Name child, addRows child (incr64 depth)))
               <$> TreeNode.Children node)).*2);
    Some ((if String.eqb (TreeNode.Name node) "." then []
           else [row_of node indent]) ++ concat below).
Proof. by destruct node. Qed.

Lemma elem_of_visited node depth (x : string * option (list TableRow.t)) :
  x ∈ merge_sort by_Name
        (map_to_list
           ((λ child, (TreeNode.Name child, addRows child (incr64 depth)))
              <$> TreeNode.Children node)).*2 ↔
  ∃ key child, TreeNode.Children node !! key = Some child ∧
               x = (TreeNode.Name child, addRows child (incr64 depth)).
Proof.
  rewrite merge_sort_Permutation, list_elem_of_fmap. split.
  - intros ([key y] & -> & Hy). apply elem_of_map_to_list in Hy.
    rewrite lookup_fmap in Hy.
    destruct (TreeNode.Children node !! key) as [c|] eqn:Ec; [|done].
    injection Hy as <-. by exists key, c.
  - intros (key & child & Hc & ->).
    exists (key, (TreeNode.Name child, addRows child (incr64 depth))).
    split; [done|]. apply elem_of_map_to_list. by rewrite lookup_fmap, Hc.
Qed.

Lemma elem_of_concat {A} (x : A) (ls : list (list A)) :
  x ∈ concat ls ↔ ∃ l, l ∈ ls ∧ x ∈ l.
Proof.
  rewrite list_elem_of_In, in_concat. split.
  - intros (l & Hl & Hx). exists l. by rewrite !list_elem_of_In.
  - intros (l & Hl & Hx). exists l. by rewrite <-!list_elem_of_In.
Qed.

(** The depth at which [addRows] does not panic. *)
Lemma Repeat_indent depth indent :
  Repeat "  " depth = Some indent →
  0 ≤ depth ∧ 2 * depth ≤ max_int ∧
  indent = repeated "  " (Z.to_nat depth).
Proof.
  unfold Repeat. destruct (depth <? 0) eqn:E0; [done|].
  change (Z.of_nat (String.length "  ")) with 2.
  destruct (max_int <? 2 * depth) eqn:E1; [done|]. intros [= <-].
  split_and!; [lia..|done].
Qed.

Lemma incr64_depth depth :
  0 ≤ depth → 2 * depth ≤ max_int →
  Z.to_nat (incr64 depth) = S (Z.to_nat depth).
Proof.
  intros H0 Hmax. unfold incr64, add64.
  rewrite wrap64_small; unfold max_int in *; lia.
Qed.

(** What a successful [addRows] is made of. *)
Lemma addRows_Some node depth rows :
  addRows node depth = Some rows →
  0 ≤ depth ∧ 2 * depth ≤ max_int ∧
  ∃ below,
    Forall2 (λ x y, x.2 = Some y)
      (merge_sort by_Name
         (map_to_list
            ((λ child, (TreeNode.Name child, addRows child (incr64 depth)))
               <$> TreeNode.Children node)).*2) below ∧
    rows = (if String.eqb (TreeNode.Name node) "." then []
            else [row_of node (repeated "  " (Z.to_nat depth))])
           ++ concat below.
Proof.
  rewrite addRows_unfold.
  destruct (Repeat "  " depth) as [indent|] eqn:Ei; [|done]. simpl.
  apply Repeat_indent in Ei as (H0 & Hmax & ->).
  match goal with
  | |- context [mapM snd ?l] => destruct (mapM snd l) as [below|] eqn:Em
  end; [|done].
  simpl. intros [= <-]. split; [done|]. split; [done|].
  exists below. split; [|done]. by apply mapM_Some in Em.
Qed.

(** The rows of a child are among the rows of its parent. *)
Lemma addRows_child node depth rows key child :
  addRows node depth = Some rows →
  TreeNode.Children node !! key = Some child →
  ∃ rows', addRows child (incr64 depth) = Some rows' ∧
           ∀ row, row ∈ rows' → row ∈ rows.
Proof.
  intros (_ & _ & below & Hf & ->)%addRows_Some Hc.
  assert ((TreeNode.Name child, addRows child (incr64 depth))
          ∈ merge_sort by_Name
              (map_to_list
                 ((λ child, (TreeNode.Name child,
                             addRows child (incr64 depth)))
                    <$> TreeNode.Children node)).*2) as Hin.
  { apply elem_of_visited. by exists key, child. }
  apply list_elem_of_lookup in Hin as [i Hi].
  destruct (Forall2_lookup_l _ _ _ _ _ Hf Hi) as (rows' & Hb & Hr).
  simpl in Hr. exists rows'. split; [done|].
  intros row Hrow. apply elem_of_app. right. apply elem_of_concat.
  exists rows'. split; [|done]. by eapply list_elem_of_lookup_2.
Qed.

(** Every node that is not named [.] has its row, indented by its depth. *)
Lemma rows_complete p node depth rows node' :
  addRows node depth = Some rows → lookup_path p node = Some node' →
  TreeNode.Name node' ≠ "." →
  row_of node' (repeated "  " (Z.to_nat depth + length p)) ∈ rows.
Proof.
  revert node depth rows.
  induction p as [|key p IH]; intros node depth rows Hr Hl Hname.
  - injection Hl as <-. apply addRows_Some in Hr as (_ & _ & below & _ & ->).
    apply String.eqb_neq in Hname. rewrite Hname, Nat.add_0_r.
    apply elem_of_app. left. left.
  - simpl in Hl.
    destruct (TreeNode.Children node !! key) as [child|] eqn:Ec; [|done].
    simpl in Hl.
    destruct (addRows_child _ _ _ _ _ Hr Ec) as (rows' & Hr' & Hsub).
    apply addRows_Some in Hr as (H0 & Hmax & _).
    apply Hsub. simpl.
    replace (Z.to_nat depth + S (length p))%nat
      with (Z.to_nat (incr64 depth) + length p)%nat
      by (rewrite incr64_depth by done; lia).
    by apply (IH child).
Qed.

(** Every row is the row of a node that is not named [.]. *)
Lemma rows_sound P node :
  all_nodes P node →
  ∀ depth rows row, addRows node depth = Some rows → row ∈ rows →
    ∃ p node', lookup_path p node = Some node' ∧
               TreeNode.Name node' ≠ "." ∧
               row = row_of node' (repeated "  " (Z.to_nat depth + length p)).
Proof.
  induction 1 as [node _ _ IH]. intros depth rows row Hr Hrow.
  apply addRows_Some in Hr as (H0 & Hmax & below & Hf & ->).
  apply elem_of_app in Hrow as [Hrow|Hrow].
  - destruct (String.eqb (TreeNode.Name node) ".") eqn:En.
    { by apply elem_of_nil in Hrow. }
    apply list_elem_of_singleton in Hrow as ->.
    exists [], node. rewrite Nat.add_0_r.
    split; [done|]. split; [|done]. by apply String.eqb_neq.
  - apply elem_of_concat in Hrow as (rows' & [i Hi]%list_elem_of_lookup & Hrow).
    destruct (Forall2_lookup_r _ _ _ _ _ Hf Hi) as (x & Hx & Hs).
    apply list_elem_of_lookup_2, elem_of_visited in Hx
      as (key & child & Hc & ->).
    simpl in Hs.
    destruct (IH key child Hc _ _ _ Hs Hrow) as (p & node' & Hl & Hn & ->).
    exists (key :: p), node'. simpl. rewrite Hc. simpl.
    split; [done|]. split; [done|]. f_equal. f_equal.
    rewrite incr64_depth by done. lia.
Qed.

(** [addRows] does not panic on a tree of a depth far below the range of
    [int]. *)
Lemma addRows_is_Some P node :
  all_nodes P node →
  ∀ depth, 0 ≤ depth →
    (∀ p node', lookup_path p node = Some node' →
                2 * (depth + Z.of_nat (length p)) ≤ max_int) →
    is_Some (addRows node depth).
Proof.
  induction 1 as [node _ _ IH]. intros depth H0 Hdeep.
  pose proof (Hdeep [] node eq_refl) as Hmax. simpl in Hmax.
  rewrite addRows_unfold, Repeat_Some; [|done|simpl; lia]. simpl.
  match goal with
  | |- context [mapM snd ?l] => assert (is_Some (mapM snd l)) as [below ->]
  end; [|by eexists].
  apply mapM_is_Some, Forall_forall.
  intros x (key & child & Hc & ->)%elem_of_visited. simpl.
  pose proof (Hdeep [key] child) as Hone. simpl in Hone.
  rewrite Hc in Hone. specialize (Hone eq_refl).
  assert (incr64 depth = depth + 1) as ->.
  { unfold incr64, add64. apply wrap64_small. unfold max_int in *. lia. }
  apply (IH key child Hc); [lia|].
  intros p node' Hl. specialize (Hdeep (key :: p) node'). simpl in Hdeep.
  rewrite Hc in Hdeep. specialize (Hdeep Hl). lia.
Qed.

(** The depth of the tree that [buildTree] makes. *)
Lemma build_depth (order : list (string * FileCoverage.t)) p node :
  (∀ entry, entry ∈ order →
            2 * Z.of_nat (length (segments entry.1)) ≤ max_int) →
  lookup_path p (aggregate (buildTree_ordered order)) = Some node →
  2 * (0 + Z.of_nat (length p)) ≤ max_int.
Proof.
  intros Hshort Hl. destruct p as [|key p]; [done|].
  apply lookup_aggregate_Some in Hl as [node0 Hl].
  apply build_on_path in Hl as (entry & Hin & Hpre); [|done].
  apply prefix_length in Hpre. specialize (Hshort entry Hin). lia.
Qed.

Lemma build_rows (order : list (string * FileCoverage.t)) :
  (∀ entry, entry ∈ order →
            2 * Z.of_nat (length (segments entry.1)) ≤ max_int) →
  is_Some (addRows (aggregate (buildTree_ordered order)) 0).
Proof.
  intros Hshort.
  apply (addRows_is_Some _ _ (aggregate_named _ (build_named order)));
    [done|].
  intros p node. by apply build_depth.
Qed.

(** X18: on the tree of a profile whose paths have fewer than 2^62
    segments, [addRows] does not panic, and the rows that it appends are
    the rows of the nodes that are not named [.], each indented by two
    blanks per level: the root has no row, and neither has a file or
    directory named [.], whose children are still listed. *)
Theorem table_rows (order : list (string * FileCoverage.t)) :
  (∀ entry, entry ∈ order →
            2 * Z.of_nat (length (segments entry.1)) ≤ max_int) →
  ∃ rows,
    addRows (aggregate (buildTree_ordered order)) 0 = Some rows ∧
    ∀ row, row ∈ rows ↔
      ∃ p node,
        lookup_path p (aggregate (buildTree_ordered order)) = Some node ∧
        TreeNode.Name node ≠ "." ∧
        row = row_of node (repeated "  " (length p)).
Proof.
  intros Hshort. destruct (build_rows order Hshort) as [rows Hr].
  exists rows. split; [done|]. intros row. split.
  - intros Hrow.
    by apply (rows_sound _ _ (aggregate_named _ (build_named order))
                _ _ _ Hr).
  - intros (p & node & Hl & Hn & ->).
    by apply (rows_complete p _ 0 rows node Hr Hl Hn).
Qed.

Lemma two_files_short entry :
  entry ∈ map_to_list two_files_data →
  2 * Z.of_nat (length (segments entry.1)) ≤ max_int.
Proof.
  destruct entry as [f fc]. intros Hin%elem_of_map_to_list. simpl.
  assert (f ∈ dom two_files_data) as Hf by (by apply elem_of_dom).
  assert (dom two_files_data = {["a/x.go"; "b.go"]}) as Hdom
    by (vm_compute; reflexivity).
  rewrite Hdom in Hf. clear Hdom Hin.
  apply elem_of_union in Hf as [Hf|Hf]; apply elem_of_singleton in Hf;
    subst f; vm_compute; discriminate.
Qed.

(** The three rows of [two_files_data]. *)
Lemma table_rows_witness :
  (∀ entry, entry ∈ map_to_list two_files_data →
            2 * Z.of_nat (length (segments entry.1)) ≤ max_int) ∧
  ∃ rows, addRows (aggregate (buildTree two_files_data)) 0 = Some rows ∧
          length rows = 3%nat.
Proof.
  split; [exact two_files_short|].
  destruct (table_rows (map_to_list two_files_data) two_files_short)
    as (rows & Hr & _).
  exists rows. split; [exact Hr|].
  assert (length <$> addRows (aggregate (buildTree two_files_data)) 0
          = Some 3%nat) as Hlen by (vm_compute; reflexivity).
  unfold buildTree in Hlen. rewrite Hr in Hlen. by injection Hlen.
Defined.

(** X19: when no file path of the profile leads through another one, every
    file of the profile whose last segment is not [.] has a row in the
    table: its name cell is the last segment behind two blanks per
    segment of the path, its lines cell is the number of covered lines, a
    slash and the number of lines, and its last cell lists the uncovered
    lines in ascending order, separated by commas. *)
Theorem file_row fileData (order : list (string * FileCoverage.t))
    filePath fc base :
  conflict_free fileData → order ≡ₚ map_to_list fileData →
  (∀ f, f ∈ dom fileData →
        2 * Z.of_nat (length (segments f)) ≤ max_int) →
  fileData !! filePath = Some fc →
  last (segments filePath) = Some base → base ≠ "." →
  ∃ rows row,
    addRows (aggregate (buildTree_ordered order)) 0 = Some rows ∧
    row ∈ rows ∧
    TableRow.displayName row
    = repeated "  " (length (segments filePath)) +:+ base ∧
    TableRow.lines row
    = Itoa (file_covered fc) +:+ "/" +:+ Itoa (file_total fc) ∧
    TableRow.uncovered row = Join (Itoa <$> file_uncovered fc) ",".
Proof.
  intros Hfree Hp Hshort Hfc Hlast Hbase.
  pose proof (conflict_free_order _ _ Hfree Hp) as Hord.
  destruct (build_rows order) as [rows Hr].
  { intros [f gc] Hin. rewrite Hp in Hin. apply elem_of_map_to_list in Hin.
    apply Hshort. by apply elem_of_dom. }
  destruct (build_inv order Hord) as ((Hall & _) & _).
  destruct (build_leaves order (filePath, fc) Hord) as (node & Hl & Hs).
  { rewrite Hp. by apply elem_of_map_to_list. }
  simpl in Hl, Hs. unfold summary in Hs. injection Hs as Hc Ht Hu Hd.
  assert (TreeNode.Name node = base) as Hname.
  { apply last_Some in Hlast as [p Hsegs]. rewrite Hsegs in Hl.
    by apply (lookup_path_named p base _ _ (build_named order)). }
  assert (lookup_path (segments filePath)
            (aggregate (buildTree_ordered order)) = Some node) as Hl'.
  { rewrite lookup_aggregate, Hl by done. simpl.
    by rewrite aggregate_file. }
  exists rows, (row_of node (repeated "  " (length (segments filePath)))).
  split; [done|]. split.
  { apply (rows_complete _ _ 0 rows node Hr Hl'). by rewrite Hname. }
  unfold row_of. simpl. rewrite Hd, Hc, Ht, Hu, Hname. simpl.
  apply String.eqb_neq in Hbase. rewrite Hbase. simpl.
  split; [done|]. split; [done|].
  by destruct (file_uncovered fc).
Qed.

(** The file [a/x.go] of [two_files_data]. *)
Lemma file_row_witness :
  conflict_free two_files_data ∧
  (∀ f, f ∈ dom two_files_data →
        2 * Z.of_nat (length (segments f)) ≤ max_int) ∧
  two_files_data !! "a/x.go"
  = Some (FileCoverage.mk "a/x.go" {[1]} {[2]} {[1; 2]}) ∧
  last (segments "a/x.go") = Some "x.go" ∧
  ∃ rows row,
    addRows (aggregate (buildTree two_files_data)) 0 = Some rows ∧
    row ∈ rows ∧ TableRow.displayName row = "    x.go".
Proof.
  assert (∀ f, f ∈ dom two_files_data →
               2 * Z.of_nat (length (segments f)) ≤ max_int) as Hshort.
  { intros f [gc Hf]%elem_of_dom.
    apply (two_files_short (f, gc)). by apply elem_of_map_to_list. }
  assert (two_files_data !! "a/x.go"
          = Some (FileCoverage.mk "a/x.go" {[1]} {[2]} {[1; 2]})) as H
    by (vm_compute; reflexivity).
  assert ("x.go" ≠ ".") as Hne by discriminate.
  split; [exact two_files_conflict_free|]. split; [exact Hshort|].
  split; [exact H|]. split; [reflexivity|].
  destruct (file_row two_files_data (map_to_list two_files_data) "a/x.go" _
              "x.go" two_files_conflict_free (reflexivity _) Hshort H
              eq_refl Hne) as (rows & row & Hr & Hin & Hname & _).
  exists rows, row. split; [exact Hr|]. split; [exact Hin|exact Hname].
Defined.

End Rows.
